(** * The multi-group Raft coordinator (package multiraft)

    A shallow embedding of the coordinator of [multiraft.go]: the group and
    peer registries, the coalesced-heartbeat emitter and fan-out, proposal
    dispatch, the write-done path and the select loop with its read-from-raft /
    write-to-storage pipeline.

    Conventions of the embedding.
    - [uint64] values (node ids, group ids, terms, indexes) are [N]; no
      arithmetic is done on them, so no wrap-around arises.  [math.MaxUint64]
      is written out as [MaxUint64].
    - Go maps are [gmap], Go sets ([map[K]struct{}]) are [gset].  Go leaves the
      order of [for k := range m] unspecified; the embedding enumerates in the
      order of [map_to_list] / [elements], and the theorems about such loops
      are stated up to [Permutation] or through counts and membership.
    - [*group] and [*proposal] are pointers into two heaps kept in the state,
      because a proposal object is shared by the pending map and the proposal
      queue, and a group object is captured by membership-change callbacks.
    - Calls into the collaborators the coordinator only consumes (the embedded
      multi-group Raft node, the transport, the storage, the application's
      channels) are recorded as a list of [effect]s in program order; what they
      answer during one loop iteration is read from an [env] record.
    - A nil dereference or other Go panic is the outcome [Panic].
    - Buffered channels are taken to have room: a send that would block on a
      full [proposalChan], or the panic of [sendEvent] on a full [Events]
      buffer, depends on how fast the other side drains the channel and is
      not part of the embedding. The properties proved of all reachable
      states hold in particular of the states reached within the buffers'
      capacities. *)

From stdpp Require Import gmap strings list fin_maps.

#[local] Set Warnings "-clear-no-such-hyp".

Open Scope N_scope.

(** ** Data of the embedded Raft library (package raftpb) *)

Abbreviation NodeID := N (only parsing).
Abbreviation GroupID := N (only parsing).

Definition MaxUint64 : N := 18446744073709551615.

Inductive MessageType :=
| MsgHup | MsgBeat | MsgProp | MsgApp | MsgAppResp | MsgVote | MsgVoteResp
| MsgSnap | MsgHeartbeat | MsgHeartbeatResp | MsgUnreachable | MsgSnapStatus.

Global Instance MessageType_eq_dec : EqDecision MessageType.
Proof. solve_decision. Defined.

Record Message := {
  msgType : MessageType;
  msgTo : N;
  msgFrom : N;
  msgTerm : N;
  msgIndex : N;
  msgCommit : N
}.

Global Instance Message_eq_dec : EqDecision Message.
Proof. solve_decision. Defined.

Record RaftMessageRequest := {
  reqGroupID : N;
  reqMessage : Message
}.

Global Instance RaftMessageRequest_eq_dec : EqDecision RaftMessageRequest.
Proof. solve_decision. Defined.

Inductive ConfChangeType :=
| ConfChangeAddNode | ConfChangeRemoveNode | ConfChangeUpdateNode.

Record ConfChange := {
  ccType : ConfChangeType;
  ccNodeID : N;
  ccContext : string
}.

(** The data of a log entry, after the wire decoding that the library does:
    a normal entry carries bytes or nil; a configuration-change entry carries
    bytes that unmarshal to a [ConfChange], or do not. *)
Inductive EntryData :=
| EntryNormal (data : option string)
| EntryConfChange (cc : option ConfChange).

Record Entry := {
  entTerm : N;
  entIndex : N;
  entData : EntryData
}.

Record HardState := { hsTerm : N; hsVote : N; hsCommit : N }.

Record Snapshot := { snapIndex : N; snapTerm : N; snapData : string }.

Record SoftState := { ssLead : N }.

Record Ready := {
  rdSoftState : option SoftState;
  rdHardState : HardState;
  rdEntries : list Entry;
  rdSnapshot : Snapshot;
  rdCommittedEntries : list Entry;
  rdMessages : list Message
}.

Definition IsEmptyHardState (st : HardState) : bool :=
  (hsTerm st =? 0) && (hsVote st =? 0) && (hsCommit st =? 0).

Definition IsEmptySnap (sp : Snapshot) : bool := snapIndex sp =? 0.

Inductive SnapshotStatus := SnapshotFinish | SnapshotFailure.

(** A ready batch, [map[uint64]raft.Ready], is only ever ranged over by the
    coordinator: it is kept as the list of its bindings in the order in which
    the range statement yields them. *)
Abbreviation batch := (list (N * Ready)) (only parsing).

(** ** Data of the coordinator *)

(** Addresses in the two object heaps, and identities of Go channels handed
    to callers. *)
Abbreviation ptr := nat (only parsing).
Abbreviation chan := nat (only parsing).

Inductive error :=
| ErrGroupNotFound (groupID : N)
| ErrInvalidGroup (groupID nodeID : N)
| ErrShuttingDown
| ErrExternal (code : N).

(** The closure [fn] of a proposal: the one [SubmitCommand] builds calls
    [Propose], the one [ChangeGroupMembership] builds calls
    [ProposeConfChange]. *)
Inductive propFn :=
| SubmitFn (command : string)
| MembershipFn (changeType : ConfChangeType) (nodeID : N) (payload : string).

Record proposal := {
  p_groupID : N;
  p_commandID : string;
  p_fn : propFn;
  p_ch : option chan
}.

Record group := {
  committedTerm : N;
  leader : N;
  pending : gmap string ptr
}.

Record node := {
  n_nodeID : N;
  refCount : Z;
  groupIDs : gset N
}.

Record createGroupOp := { cg_groupID : N; cg_ch : chan }.
Record removeGroupOp := { rg_groupID : N; rg_ch : chan }.

(** The closure handed to the application in
    [EventMembershipChangeCommitted]: it captures the group id, the group
    object and the decoded configuration change. *)
Record callback := {
  cb_groupID : N;
  cb_g : ptr;
  cb_cc : ConfChange
}.

Inductive Event :=
| EventCommandCommitted (GroupID : N) (CommandID Command : string) (Index : N)
| EventMembershipChangeCommitted (GroupID : N) (CommandID : string) (Index : N)
    (Node : N) (ChangeType : ConfChangeType) (Payload : string) (Callback : callback)
| EventLeaderElection (GroupID : N) (Node : N) (Term : N).

(** Modelled from the spec: the write request of the write task, whose
    declaration is not among the sources (a mapping from group id to an
    optional HardState, an optional snapshot and the entries); it is built
    binding by binding in the order of the batch. *)
Record groupWriteRequest := {
  gwr_state : option HardState;
  gwr_snapshot : option Snapshot;
  gwr_entries : list Entry
}.

Abbreviation writeRequest := (list (N * groupWriteRequest)) (only parsing).

(** Everything the coordinator does to its collaborators, in program order. *)
Inductive effect :=
| TransportSend (to : N) (req : RaftMessageRequest)
| TransportStop (id : N)
| MNStep (groupID : N) (msg : Message)
| MNCreateGroup (groupID : N) (applied : N)
| MNRemoveGroup (groupID : N)
| MNCampaign (groupID : N)
| MNPropose (groupID : N) (commandID command : string)
| MNProposeConfChange (groupID : N) (changeType : ConfChangeType) (nodeID : N)
    (commandID payload : string)
| MNApplyConfChange (groupID : N) (cc : option ConfChange)
| MNReportUnreachable (to : N) (groupID : N)
| MNReportSnapshot (to : N) (groupID : N) (status : SnapshotStatus)
| MNAdvance (b : option (list (N * Ready)))
| MNTick
| MNStop
| SendEvent (ev : Event)
| OpReply (c : chan) (err : option error)
| ProposalDone (c : chan) (err : option error)
| WriteTaskIn (req : list (N * groupWriteRequest)).

(** What the collaborators answer during one iteration of the loop. Go
    functions return their value together with the error, so [InitialState]
    and [AppliedIndex] give both. *)
Record env := {
  InitialState : N -> list N * option error;
  AppliedIndex : N -> N * option error;
  CreateGroupErr : N -> option error;
  RemoveGroupErr : N -> option error;
  SendErr : N -> RaftMessageRequest -> option error
}.

(** The [state] struct with the fields of the embedded [MultiRaft] and
    [Config] that the coordinator reads, the two object heaps, and the
    contents of [proposalChan] (the loop itself sends on it). *)
Record state := {
  nodeID : N;
  HeartbeatIntervalTicks : Z;
  hasStateMachine : bool;
  groups : gmap N ptr;
  nodes : gmap N node;
  groupHeap : gmap ptr group;
  proposalHeap : gmap ptr proposal;
  proposalChan : list ptr
}.

Definition set_groups (f : gmap N ptr -> gmap N ptr) (s : state) : state :=
  {| nodeID := nodeID s; HeartbeatIntervalTicks := HeartbeatIntervalTicks s;
     hasStateMachine := hasStateMachine s; groups := f (groups s);
     nodes := nodes s; groupHeap := groupHeap s;
     proposalHeap := proposalHeap s; proposalChan := proposalChan s |}.

Definition set_nodes (f : gmap N node -> gmap N node) (s : state) : state :=
  {| nodeID := nodeID s; HeartbeatIntervalTicks := HeartbeatIntervalTicks s;
     hasStateMachine := hasStateMachine s; groups := groups s;
     nodes := f (nodes s); groupHeap := groupHeap s;
     proposalHeap := proposalHeap s; proposalChan := proposalChan s |}.

Definition set_groupHeap (f : gmap ptr group -> gmap ptr group) (s : state) : state :=
  {| nodeID := nodeID s; HeartbeatIntervalTicks := HeartbeatIntervalTicks s;
     hasStateMachine := hasStateMachine s; groups := groups s;
     nodes := nodes s; groupHeap := f (groupHeap s);
     proposalHeap := proposalHeap s; proposalChan := proposalChan s |}.

Definition set_proposalHeap (f : gmap ptr proposal -> gmap ptr proposal) (s : state) : state :=
  {| nodeID := nodeID s; HeartbeatIntervalTicks := HeartbeatIntervalTicks s;
     hasStateMachine := hasStateMachine s; groups := groups s;
     nodes := nodes s; groupHeap := groupHeap s;
     proposalHeap := f (proposalHeap s); proposalChan := proposalChan s |}.

Definition set_proposalChan (f : list ptr -> list ptr) (s : state) : state :=
  {| nodeID := nodeID s; HeartbeatIntervalTicks := HeartbeatIntervalTicks s;
     hasStateMachine := hasStateMachine s; groups := groups s;
     nodes := nodes s; groupHeap := groupHeap s;
     proposalHeap := proposalHeap s; proposalChan := f (proposalChan s) |}.

(** ** The monad of coordinator code

    A computation reads and writes the [state], appends to the list of
    effects, and either returns or panics; the effects performed before a
    panic are kept. *)

Inductive outcome (A : Type) :=
| Ret (a : A) (s : state)
| Panic.
Arguments Ret {A} a s.
Arguments Panic {A}.

Definition M (A : Type) : Type := state -> list effect * outcome A.

Global Instance M_ret : MRet M := fun A (a : A) s => ([], Ret a s).

Global Instance M_bind : MBind M := fun A B (f : A -> M B) (m : M A) s =>
  match m s with
  | (o1, Ret a s1) => let '(o2, r) := f a s1 in (o1 ++ o2, r)
  | (o1, Panic) => (o1, Panic)
  end.

Definition ret {A} (a : A) : M A := mret a.
Definition gets {A} (f : state -> A) : M A := fun s => ([], Ret (f s) s).
Definition modify (f : state -> state) : M unit := fun s => ([], Ret tt (f s)).
Definition emit (e : effect) : M unit := fun s => ([e], Ret tt s).
Definition panic {A} : M A := fun s => ([], Panic).

(** [for _, x := range l { body }] without break. *)
Fixpoint forM_ {A} (l : list A) (body : A -> M unit) : M unit :=
  match l with
  | [] => ret tt
  | x :: l' => body x ;; forM_ l' body
  end.

(** [s.groups[groupID]] yields a pointer, nil when the key is missing;
    reading a field through nil panics. *)
Definition derefGroup (gp : option ptr) : M group := fun s =>
  match gp ≫= (fun p => groupHeap s !! p) with
  | Some g => ([], Ret g s)
  | None => ([], Panic)
  end.

Definition derefProposal (p : ptr) : M proposal := fun s =>
  match proposalHeap s !! p with
  | Some pr => ([], Ret pr s)
  | None => ([], Panic)
  end.

(** ** Heartbeat coalescing *)

Definition heartbeatMsg (self to : N) (t : MessageType) : Message :=
  {| msgType := t; msgTo := to; msgFrom := self;
     msgTerm := 0; msgIndex := 0; msgCommit := 0 |}.

(** The bare response sent to an unknown node: only [From] and [Type] set. *)
Definition bareHeartbeatResp (self : N) : RaftMessageRequest :=
  {| reqGroupID := MaxUint64;
     reqMessage := heartbeatMsg self 0 MsgHeartbeatResp |}.

Definition fanoutHeartbeat (req : RaftMessageRequest) : M unit :=
  let fromID := msgFrom (reqMessage req) in
  self ← gets nodeID;
  originNode ← gets (fun s => nodes s !! fromID);
  match originNode with
  | None => emit (TransportSend fromID (bareHeartbeatResp self))
  | Some originNode =>
      forM_ (elements (groupIDs originNode)) (fun groupID =>
        gp ← gets (fun s => groups s !! groupID);
        g ← derefGroup gp;
        if bool_decide (leader g ≠ fromID) || bool_decide (fromID = self)
        then ret tt
        else emit (MNStep groupID (reqMessage req)))
  end.

Definition fanoutHeartbeatResponse (req : RaftMessageRequest) : M unit :=
  let fromID := msgFrom (reqMessage req) in
  self ← gets nodeID;
  originNode ← gets (fun s => nodes s !! fromID);
  match originNode with
  | None => ret tt
  | Some originNode =>
      forM_ (elements (groupIDs originNode)) (fun groupID =>
        gp ← gets (fun s => groups s !! groupID);
        g ← derefGroup gp;
        if bool_decide (leader g ≠ self) || bool_decide (fromID = self)
        then ret tt
        else emit (MNStep groupID (reqMessage req)))
  end.

Definition coalescedHeartbeatReq (self to : N) : RaftMessageRequest :=
  {| reqGroupID := MaxUint64; reqMessage := heartbeatMsg self to MsgHeartbeat |}.

Definition coalescedHeartbeat : M unit :=
  self ← gets nodeID;
  ns ← gets nodes;
  forM_ (map_to_list ns) (fun '(to, _) =>
    if bool_decide (to = self) then ret tt
    else emit (TransportSend to (coalescedHeartbeatReq self to))).

(** ** Peer and group registries *)

Definition registerGroup (groupID : N) (n : node) : node :=
  {| n_nodeID := n_nodeID n; refCount := refCount n;
     groupIDs := {[groupID]} ∪ groupIDs n |}.

Definition unregisterGroup (groupID : N) (n : node) : node :=
  {| n_nodeID := n_nodeID n; refCount := refCount n;
     groupIDs := groupIDs n ∖ {[groupID]} |}.

Definition newNode (nid : N) : node :=
  {| n_nodeID := nid; refCount := 1%Z; groupIDs := ∅ |}.

Definition addNode (nid : N) (gids : list N) : M (option error) :=
  gs ← gets groups;
  match List.find (fun groupID => bool_decide (gs !! groupID = None)) gids with
  | Some groupID => ret (Some (ErrInvalidGroup groupID nid))
  | None =>
      modify (set_nodes (fun ns =>
        match ns !! nid with
        | Some _ => ns
        | None => <[nid := newNode nid]> ns
        end));;
      forM_ gids (fun groupID =>
        modify (set_nodes (alter (registerGroup groupID) nid)));;
      ret None
  end.

Definition newGroup : group :=
  {| committedTerm := 0; leader := 0; pending := ∅ |}.

(** [s.groups[groupID] = &group{...}]: a new object at a fresh address. *)
Definition allocGroup (groupID : N) : M unit :=
  modify (fun s =>
    let p := fresh (dom (groupHeap s)) in
    set_groups (insert groupID p) (set_groupHeap (insert p newGroup) s)).

(** [for _, nodeID := range cs.Nodes] of [createGroup], which returns at the
    first error. *)
Fixpoint addNodes (cs : list N) (groupID : N) : M (option error) :=
  match cs with
  | [] => ret None
  | nid :: cs' =>
      err ← addNode nid [groupID];
      match err with
      | Some e => ret (Some e)
      | None => addNodes cs' groupID
      end
  end.

Definition createGroup (E : env) (groupID : N) : M (option error) :=
  gp ← gets (fun s => groups s !! groupID);
  match gp with
  | Some _ => ret None
  | None =>
      let '(cs, err) := InitialState E groupID in
      match err with
      | Some e => ret (Some e)
      | None =>
          sm ← gets hasStateMachine;
          let '(appliedIndex, err) :=
            if (sm : bool) then AppliedIndex E groupID else (0, @None error) in
          match err with
          | Some e => ret (Some e)
          | None =>
              emit (MNCreateGroup groupID appliedIndex);;
              match CreateGroupErr E groupID with
              | Some e => ret (Some e)
              | None =>
                  allocGroup groupID;;
                  err ← addNodes cs groupID;
                  match err with
                  | Some e => ret (Some e)
                  | None =>
                      self ← gets nodeID;
                      (if bool_decide (cs = [self])
                       then emit (MNCampaign groupID) else ret tt);;
                      ret None
                  end
              end
          end
      end
  end.

Definition removeGroup (E : env) (op : removeGroupOp) : M unit :=
  gp ← gets (fun s => groups s !! rg_groupID op);
  match gp with
  | None => emit (OpReply (rg_ch op) None)
  | Some _ =>
      emit (MNRemoveGroup (rg_groupID op));;
      match RemoveGroupErr E (rg_groupID op) with
      | Some e => emit (OpReply (rg_ch op) (Some e))
      | None =>
          let '(cs, err) := InitialState E (rg_groupID op) in
          (match err with
           | Some e => emit (OpReply (rg_ch op) (Some e))
           | None => ret tt
           end);;
          forM_ cs (fun nid =>
            n ← gets (fun s => nodes s !! nid);
            match n with
            | None => panic
            | Some _ =>
                modify (set_nodes (alter (unregisterGroup (rg_groupID op)) nid))
            end);;
          modify (set_groups (delete (rg_groupID op)));;
          emit (OpReply (rg_ch op) None)
      end
  end.

(** ** Proposals *)

(** [p.fn()]: the closure's call into the embedded Raft; the error it may
    return is only logged. *)
Definition callFn (pr : proposal) : M unit :=
  match p_fn pr with
  | SubmitFn command =>
      emit (MNPropose (p_groupID pr) (p_commandID pr) command)
  | MembershipFn changeType nid payload =>
      emit (MNProposeConfChange (p_groupID pr) changeType nid
                                (p_commandID pr) payload)
  end.

Definition set_pending (f : gmap string ptr -> gmap string ptr) (g : group) : group :=
  {| committedTerm := committedTerm g; leader := leader g;
     pending := f (pending g) |}.

Definition propose (p : ptr) : M unit :=
  pr ← derefProposal p;
  gp ← gets (fun s => groups s !! p_groupID pr);
  match gp with
  | None =>
      match p_ch pr with
      | Some c => emit (ProposalDone c (Some (ErrGroupNotFound (p_groupID pr))))
      | None => ret tt
      end
  | Some gptr =>
      _ ← derefGroup (Some gptr);
      modify (set_groupHeap (alter (set_pending (insert (p_commandID pr) p)) gptr));;
      callFn pr
  end.

(** ** The write pipeline *)

(** [handleWriteReady]: the request built from the stashed batch is sent on
    the write task's [in] channel. *)
Definition groupWriteRequestOf (ready : Ready) : groupWriteRequest :=
  {| gwr_state :=
       if IsEmptyHardState (rdHardState ready) then None
       else Some (rdHardState ready);
     gwr_snapshot :=
       if IsEmptySnap (rdSnapshot ready) then None
       else Some (rdSnapshot ready);
     gwr_entries := rdEntries ready |}.

Definition writeRequestOf (readyGroups : list (N * Ready)) : list (N * groupWriteRequest) :=
  map (fun '(groupID, ready) => (groupID, groupWriteRequestOf ready)) readyGroups.

Definition handleWriteReady (readyGroups : list (N * Ready)) : M unit :=
  emit (WriteTaskIn (writeRequestOf readyGroups)).

(** Modelled from the spec: [decodeCommand] is not among the sources; command
    payloads are framed as a 16-byte command id followed by the opaque
    command. *)
Definition commandIDLen : nat := 16.

Definition decodeCommand (data : string) : string * string :=
  (String.substring 0 commandIDLen data,
   String.substring commandIDLen (String.length data - commandIDLen) data).

(** [sendEvent]: the event is queued for the application. (The panic on a
    full [Events] buffer depends on how fast the application drains it and is
    outside this embedding.) *)
Definition sendEvent (ev : Event) : M unit := emit (SendEvent ev).

Definition processCommittedEntry (groupID : N) (g : ptr) (entry : Entry) : M string :=
  match entData entry with
  | EntryNormal None => ret EmptyString
  | EntryNormal (Some data) =>
      let '(commandID, command) := decodeCommand data in
      sendEvent (EventCommandCommitted groupID commandID command (entIndex entry));;
      ret commandID
  | EntryConfChange None => panic
  | EntryConfChange (Some cc) =>
      let '(commandID, payload) :=
        if bool_decide (ccContext cc = EmptyString) then (EmptyString, EmptyString)
        else decodeCommand (ccContext cc) in
      sendEvent (EventMembershipChangeCommitted groupID commandID (entIndex entry)
                   (ccNodeID cc) (ccType cc) payload
                   {| cb_groupID := groupID; cb_g := g; cb_cc := cc |});;
      ret commandID
  end.

(** [for _, prop := range g.pending { s.proposalChan <- prop }] *)
Definition requeuePending (g : group) : M unit :=
  forM_ (map_to_list (pending g)) (fun '(_, prop) =>
    modify (set_proposalChan (fun q => q ++ [prop]))).

(** The closure that [Callback(err)] puts on [callbackChan], run by the
    loop. An aborted change applies the empty [ConfChange{}], written [None]. *)
Definition runCallback (cb : callback) (err : option error) : M unit :=
  (match err with
   | None =>
       (match ccType (cb_cc cb) with
        | ConfChangeAddNode =>
            _ ← addNode (ccNodeID (cb_cc cb)) [cb_groupID cb]; ret tt
        | ConfChangeRemoveNode => ret tt
        | ConfChangeUpdateNode => ret tt
        end);;
       emit (MNApplyConfChange (cb_groupID cb) (Some (cb_cc cb)))
   | Some _ => emit (MNApplyConfChange (cb_groupID cb) None)
   end);;
  g ← derefGroup (Some (cb_g cb));
  requeuePending g.

Definition sendMessage (E : env) (groupID : N) (msg : Message) : M unit :=
  let nid := msgTo msg in
  n ← gets (fun s => nodes s !! nid);
  (match n with
   | None => _ ← addNode nid [groupID]; ret tt
   | Some _ => ret tt
   end);;
  let req := {| reqGroupID := groupID; reqMessage := msg |} in
  emit (TransportSend nid req);;
  let err := SendErr E nid req in
  (match err with
   | Some _ => emit (MNReportUnreachable (msgTo msg) groupID)
   | None => ret tt
   end);;
  if bool_decide (msgType msg = MsgSnap)
  then emit (MNReportSnapshot (msgTo msg) groupID
               (match err with Some _ => SnapshotFailure | None => SnapshotFinish end))
  else ret tt.

Definition lastCommittedTerm (ready : Ready) : option N :=
  entTerm <$> last (rdCommittedEntries ready).

Definition maybeSendLeaderEvent (groupID : N) (gptr : ptr) (ready : Ready) : M unit :=
  g ← derefGroup (Some gptr);
  let lead :=
    match rdSoftState ready with
    | Some ss => ssLead ss
    | None => leader g
    end in
  let term := default (committedTerm g) (lastCommittedTerm ready) in
  modify (set_groupHeap (alter (fun g =>
    {| committedTerm := committedTerm g; leader := lead; pending := pending g |}) gptr));;
  if bool_decide (term ≠ committedTerm g) && bool_decide (lead ≠ 0)
  then
    modify (set_groupHeap (alter (fun g =>
      {| committedTerm := term; leader := leader g; pending := pending g |}) gptr));;
    sendEvent (EventLeaderElection groupID lead term);;
    requeuePending g
  else ret tt.

(** The body of [for _, entry := range ready.CommittedEntries]. *)
Definition finishCommitted (groupID : N) (gptr : ptr) (entry : Entry) : M unit :=
  commandID ← processCommittedEntry groupID gptr entry;
  g ← derefGroup (Some gptr);
  match pending g !! (commandID : string) with
  | Some p =>
      pr ← derefProposal p;
      (match p_ch pr with
       | Some c =>
           emit (ProposalDone c None);;
           modify (set_proposalHeap (alter (fun pr =>
             {| p_groupID := p_groupID pr; p_commandID := p_commandID pr;
                p_fn := p_fn pr; p_ch := None |}) p))
       | None => ret tt
       end);;
      modify (set_groupHeap (alter (set_pending (delete commandID)) gptr))
  | None => ret tt
  end.

(** The body of [for _, msg := range ready.Messages], with the local set
    [noMoreHeartbeats] threaded through. *)
Fixpoint sendMessages (E : env) (groupID : N) (msgs : list Message)
    (noMoreHeartbeats : gset N) : M unit :=
  match msgs with
  | [] => ret tt
  | msg :: rest =>
      match msgType msg with
      | MsgHeartbeat => sendMessages E groupID rest noMoreHeartbeats
      | MsgHeartbeatResp =>
          if bool_decide (msgTo msg ∈ noMoreHeartbeats)
          then sendMessages E groupID rest noMoreHeartbeats
          else
            sendMessage E groupID msg;;
            sendMessages E groupID rest ({[msgTo msg]} ∪ noMoreHeartbeats)
      | _ =>
          sendMessage E groupID msg;;
          sendMessages E groupID rest noMoreHeartbeats
      end
  end.

(** One iteration of [for groupID, ready := range readyGroups]. *)
Definition handleGroupReady (E : env) (groupID : N) (ready : Ready) : M unit :=
  gp ← gets (fun s => groups s !! groupID);
  match gp with
  | None => ret tt
  | Some gptr =>
      forM_ (rdCommittedEntries ready) (finishCommitted groupID gptr);;
      maybeSendLeaderEvent groupID gptr ready;;
      sendMessages E groupID (rdMessages ready) ∅
  end.

Definition handleWriteResponse (E : env) (readyGroups : list (N * Ready)) : M unit :=
  forM_ readyGroups (fun '(groupID, ready) => handleGroupReady E groupID ready).

(** ** The coordinator loop *)

(** Modelled from the spec: the write task, which is not among the sources.
    It owns the channels [in] and [out] and the [ready] signal: idle, it
    takes the [ready] signal and then a request from [in]; having made the
    request durable it offers the acknowledgement on [out] and is idle again
    once the coordinator has taken it. *)
Inductive writeTaskState :=
| WriterIdle
| WriterBusy (req : list (N * groupWriteRequest)).

(** The [state] together with the local variables of the goroutine started
    by [start]. [running] is false once the loop has returned. *)
Record loop := {
  st : state;
  readyGroups : option (list (N * Ready));
  writingGroups : option (list (N * Ready));
  ticks : Z;
  writer : writeTaskState;
  running : bool
}.

Definition newState (self : N) (heartbeatIntervalTicks : Z) (stateMachine : bool) : state :=
  {| nodeID := self; HeartbeatIntervalTicks := heartbeatIntervalTicks;
     hasStateMachine := stateMachine; groups := ∅; nodes := ∅;
     groupHeap := ∅; proposalHeap := ∅; proposalChan := [] |}.

Definition start (s : state) : loop :=
  {| st := s; readyGroups := None; writingGroups := None; ticks := 0%Z;
     writer := WriterIdle; running := true |}.

(** The cases of the [select], each with what it receives, and the two
    entry points by which callers fill [proposalChan]. [CallbackChan cb err]
    receives the closure that [cb], the callback of some
    [EventMembershipChangeCommitted], queues when the application calls it
    with [err]; the loop states reachable with arbitrary [cb] include those
    reachable with the callbacks that were really handed out. *)
Inductive event :=
| ShouldStop (pendingOps : list (createGroupOp + removeGroupOp))
| ReqChan (req : RaftMessageRequest)
| CreateGroupChan (op : createGroupOp)
| RemoveGroupChan (op : removeGroupOp)
| ProposalChan
| RaftReady (ready : option (list (N * Ready)))
| WriteReady
| WriteTaskOut
| TickerChan
| CallbackChan (cb : callback) (err : option error)
| SubmitCommand (groupID : N) (commandID command : string)
| ChangeGroupMembership (groupID : N) (commandID : string)
    (changeType : ConfChangeType) (nid : N) (payload : string).

(** The two channel variables set at the top of each iteration: [raftReady]
    and [writeReady] are nil (their case can never be chosen) unless armed
    here. *)
Definition raftReadyArmed (l : loop) : bool :=
  match readyGroups l with
  | Some _ => false
  | None => match writingGroups l with None => true | Some _ => false end
  end.

Definition writeReadyArmed (l : loop) : bool :=
  match readyGroups l with
  | Some _ => true
  | None => false
  end.

(** Which events can happen in a loop state: a case of the [select] needs a
    running loop, an armed channel variable and a partner ready to
    communicate. *)
Definition enabled (l : loop) (ev : event) : bool :=
  match ev with
  | SubmitCommand _ _ _ | ChangeGroupMembership _ _ _ _ _ => true
  | RaftReady _ => running l && raftReadyArmed l
  | WriteReady =>
      running l && writeReadyArmed l &&
      match writer l with WriterIdle => true | WriterBusy _ => false end
  | WriteTaskOut =>
      running l &&
      match writer l with WriterIdle => false | WriterBusy _ => true end
  | ProposalChan =>
      running l &&
      match proposalChan (st l) with [] => false | _ :: _ => true end
  | _ => running l
  end.

Definition stop (pendingOps : list (createGroupOp + removeGroupOp)) : M unit :=
  self ← gets nodeID;
  emit (TransportStop self);;
  forM_ pendingOps (fun op =>
    match op with
    | inl op => emit (OpReply (cg_ch op) (Some ErrShuttingDown))
    | inr op => emit (OpReply (rg_ch op) (Some ErrShuttingDown))
    end);;
  emit MNStop.

Definition handleRequest (E : env) (req : RaftMessageRequest) : M unit :=
  match msgType (reqMessage req) with
  | MsgHeartbeat => fanoutHeartbeat req
  | MsgHeartbeatResp => fanoutHeartbeatResponse req
  | _ =>
      gp ← gets (fun s => groups s !! reqGroupID req);
      err ← match gp with
            | None => createGroup E (reqGroupID req)
            | Some _ => ret None
            end;
      match err with
      | Some _ => ret tt
      | None => emit (MNStep (reqGroupID req) (reqMessage req))
      end
  end.

Definition dequeueProposal : M unit :=
  q ← gets proposalChan;
  match q with
  | [] => ret tt
  | prop :: rest =>
      modify (set_proposalChan (fun _ => rest));;
      propose prop
  end.

(** A caller allocates the proposal with its own completion channel and
    sends it on [proposalChan]. *)
Definition enqueueNew (groupID : N) (commandID : string) (fn : propFn) : M unit :=
  modify (fun s =>
    let p := fresh (dom (proposalHeap s)) in
    set_proposalChan (fun q => q ++ [p])
      (set_proposalHeap (insert p
         {| p_groupID := groupID; p_commandID := commandID; p_fn := fn;
            p_ch := Some p |}) s)).

Definition with_st (l : loop) (s : state) : loop :=
  {| st := s; readyGroups := readyGroups l; writingGroups := writingGroups l;
     ticks := ticks l; writer := writer l; running := running l |}.

Definition inLoop (l : loop) (m : M unit) (k : state -> loop) : list effect * option loop :=
  match m (st l) with
  | (o, Ret _ s) => (o, Some (k s))
  | (o, Panic) => (o, None)
  end.

(** One event from a loop state: the effects performed and the next loop
    state, or [None] when the goroutine panics. *)
Definition step (E : env) (ev : event) (l : loop) : list effect * option loop :=
  match ev with
  | ShouldStop pendingOps =>
      inLoop l (stop pendingOps) (fun s =>
        {| st := s; readyGroups := readyGroups l; writingGroups := writingGroups l;
           ticks := ticks l; writer := writer l; running := false |})
  | ReqChan req => inLoop l (handleRequest E req) (with_st l)
  | CreateGroupChan op =>
      inLoop l (err ← createGroup E (cg_groupID op); emit (OpReply (cg_ch op) err))
        (with_st l)
  | RemoveGroupChan op => inLoop l (removeGroup E op) (with_st l)
  | ProposalChan => inLoop l dequeueProposal (with_st l)
  | RaftReady ready =>
      ([], Some {| st := st l; readyGroups := ready; writingGroups := writingGroups l;
                   ticks := ticks l; writer := writer l; running := running l |})
  | WriteReady =>
      inLoop l (handleWriteReady (default [] (readyGroups l))) (fun s =>
        {| st := s; readyGroups := None; writingGroups := readyGroups l;
           ticks := ticks l;
           writer := WriterBusy (writeRequestOf (default [] (readyGroups l)));
           running := running l |})
  | WriteTaskOut =>
      inLoop l
        (handleWriteResponse E (default [] (writingGroups l));;
         emit (MNAdvance (writingGroups l)))
        (fun s =>
        {| st := s; readyGroups := readyGroups l; writingGroups := None;
           ticks := ticks l; writer := WriterIdle; running := running l |})
  | TickerChan =>
      let fire := bool_decide (HeartbeatIntervalTicks (st l) ≤ ticks l + 1)%Z in
      inLoop l (emit MNTick;; if fire then coalescedHeartbeat else ret tt) (fun s =>
        {| st := s; readyGroups := readyGroups l; writingGroups := writingGroups l;
           ticks := if fire then 0%Z else (ticks l + 1)%Z;
           writer := writer l; running := running l |})
  | CallbackChan cb err => inLoop l (runCallback cb err) (with_st l)
  | SubmitCommand groupID commandID command =>
      inLoop l (enqueueNew groupID commandID (SubmitFn command)) (with_st l)
  | ChangeGroupMembership groupID commandID changeType nid payload =>
      inLoop l (enqueueNew groupID commandID (MembershipFn changeType nid payload))
        (with_st l)
  end.

(** The loop states that a run from [l0] passes through. *)
Inductive reachable (l0 : loop) : loop -> Prop :=
| reachable_start : reachable l0 l0
| reachable_step E ev l o l' :
    reachable l0 l ->
    enabled l ev = true ->
    step E ev l = (o, Some l') ->
    reachable l0 l'.

(** Running a list of events, each with the answers of the collaborators
    during it; the effects are accumulated. *)
Inductive runResult :=
| Running (l : loop)
| Crashed
| NotEnabled.

Fixpoint run (evs : list (env * event)) (l : loop) : list effect * runResult :=
  match evs with
  | [] => ([], Running l)
  | (E, ev) :: evs' =>
      if enabled l ev then
        match step E ev l with
        | (o, Some l') => let '(o', r) := run evs' l' in (o ++ o', r)
        | (o, None) => (o, Crashed)
        end
      else ([], NotEnabled)
  end.

(** ** Specifications of monadic code *)

(** [hoare P m Q]: from a state satisfying [P], if [m] returns [a] in state
    [s'] then [Q a s'] (a panic satisfies it vacuously; the places where the
    code can panic are characterised separately). *)
Definition hoare {A} (P : state -> Prop) (m : M A) (Q : A -> state -> Prop) : Prop :=
  forall s, P s ->
    match (m s).2 with
    | Ret a s' => Q a s'
    | Panic => True
    end.

(** [emits Φ m]: every effect that [m] performs satisfies [Φ], also when it
    panics. *)
Definition emits {A} (Φ : effect -> Prop) (m : M A) : Prop :=
  forall s, Forall Φ (m s).1.

(** ** Observations used in the statements *)

(** The leader that the group table records for a group id, if the id is in
    the table. *)
Definition leaderOf (s : state) (groupID : N) : option N :=
  leader <$> (groups s !! groupID ≫= fun p => groupHeap s !! p).

(** What one iteration of the fan-out loop of [fanoutHeartbeat] does for a
    group that is in the table. *)
Definition fanoutStep (s : state) (req : RaftMessageRequest) (groupID : N) : list effect :=
  if bool_decide (leaderOf s groupID = Some (msgFrom (reqMessage req)) /\
                  msgFrom (reqMessage req) ≠ nodeID s)
  then [MNStep groupID (reqMessage req)] else [].

(** What one iteration of the loop of [coalescedHeartbeat] does. *)
Definition heartbeatTo (self to : N) : list effect :=
  if bool_decide (to = self) then []
  else [TransportSend to (coalescedHeartbeatReq self to)].

(** Classifying transport sends: a heartbeat response of group [groupID] to
    node [to], a heartbeat response of any group to node [to], a heartbeat;
    and counting the effects that satisfy a test. *)
Definition isRespSend (groupID to : N) (e : effect) : bool :=
  match e with
  | TransportSend to' req =>
      bool_decide (to' = to) && bool_decide (reqGroupID req = groupID) &&
      bool_decide (msgType (reqMessage req) = MsgHeartbeatResp)
  | _ => false
  end.

Definition isRespSendTo (to : N) (e : effect) : bool :=
  match e with
  | TransportSend to' req =>
      bool_decide (to' = to) &&
      bool_decide (msgType (reqMessage req) = MsgHeartbeatResp)
  | _ => false
  end.

Definition isHeartbeatSend (e : effect) : bool :=
  match e with
  | TransportSend _ req => bool_decide (msgType (reqMessage req) = MsgHeartbeat)
  | _ => false
  end.

Definition isSend (e : effect) : bool :=
  match e with TransportSend _ _ => true | _ => false end.

Definition count (p : effect -> bool) (o : list effect) : nat :=
  length (List.filter p o).

(** Effects that are not transport sends. *)
Definition notSend (e : effect) : Prop := isSend e = false.

(** Predicates on effects that only transport sends can satisfy. *)
Definition onlySends (p : effect -> bool) : Prop :=
  forall e, isSend e = false -> p e = false.

(** What [sendMessage] reports to the embedded Raft after the send. *)
Definition sendReports (E : env) (groupID : N) (msg : Message) : list effect :=
  let err := SendErr E (msgTo msg) {| reqGroupID := groupID; reqMessage := msg |} in
  match err with
  | Some _ => [MNReportUnreachable (msgTo msg) groupID]
  | None => []
  end ++
  if bool_decide (msgType msg = MsgSnap)
  then [MNReportSnapshot (msgTo msg) groupID
          (match err with Some _ => SnapshotFailure | None => SnapshotFinish end)]
  else [].

(** Effects of the apply/send stage of the pipeline: events for the
    application, completion of a committed proposal, outbound messages other
    than heartbeat traffic, reports on sends, and [Advance]. *)
Definition isApplyEffect (e : effect) : bool :=
  match e with
  | SendEvent _ | MNAdvance _ | ProposalDone _ None
  | MNReportUnreachable _ _ | MNReportSnapshot _ _ _ => true
  | TransportSend _ req =>
      negb (bool_decide (msgType (reqMessage req) = MsgHeartbeat)) &&
      negb (bool_decide (msgType (reqMessage req) = MsgHeartbeatResp))
  | _ => false
  end.

Definition notApply (e : effect) : Prop := isApplyEffect e = false.

(** The pipeline invariant: the write task holds a request exactly while a
    batch is being written, and that request was built from that batch; a
    stashed batch and a batch being written never coexist. *)
Definition pipelineInv (l : loop) : Prop :=
  match writer l with
  | WriterIdle => writingGroups l = None
  | WriterBusy req => exists b, writingGroups l = Some b /\ req = writeRequestOf b
  end /\
  (is_Some (readyGroups l) -> writingGroups l = None).

(** [keeps I m]: [m] maintains the state invariant [I]. *)
Definition keeps {A} (I : state -> Prop) (m : M A) : Prop :=
  hoare I m (fun _ => I).

(** The committed term stored in the group object at [gptr]. *)
Definition termAt (gptr : nat) (c : N) (s : state) : Prop :=
  exists g, groupHeap s !! gptr = Some g /\ committedTerm g = c.

(** The group table is [gs] and the group object at [gptr] stores the
    committed term [c]: what the write-done path leaves alone outside
    [maybeSendLeaderEvent]. *)
Definition frame (gs : gmap N nat) (gptr : nat) (c : N) (s : state) : Prop :=
  groups s = gs /\ termAt gptr c s.

(** [post m s Q]: if [m] returns from [s], its effects, value and final
    state satisfy [Q]. *)
Definition post {A} (m : M A) (s : state)
    (Q : list effect -> A -> state -> Prop) : Prop :=
  match m s with
  | (o, Ret a s') => Q o a s'
  | (_, Panic) => True
  end.

(** What is known of the group object at [gptr] while a batch is applied:
    the group table is still [gs], and the object's committed term is still
    [c0] or is the last committed term of a ready of the batch whose group id
    the table maps to the object, recorded with a non-zero leader in a
    [LeaderElection] event that was emitted. *)
Definition termTrack (batch : list (N * Ready)) (gs : gmap N nat) (gptr : nat)
    (c0 : N) (o : list effect) (s : state) : Prop :=
  groups s = gs /\
  exists g', groupHeap s !! gptr = Some g' /\
    (committedTerm g' = c0 \/
     exists gid rd lead,
       (gid, rd) ∈ batch /\ gs !! gid = Some gptr /\
       lastCommittedTerm rd = Some (committedTerm g') /\ lead ≠ 0 /\
       SendEvent (EventLeaderElection gid lead (committedTerm g')) ∈ o).

(** The ready of a batch does not carry, for the group object at [gptr], a
    last committed term below the one the object stores. *)
Definition termNotBehind (gptr : nat) (s : state) (b : N * Ready) : bool :=
  if bool_decide (groups s !! b.1 = Some gptr) then
    match groupHeap s !! gptr, lastCommittedTerm b.2 with
    | Some g, Some t => committedTerm g <=? t
    | _, _ => true
    end
  else true.

Definition noStaleTerm (gptr : nat) (l : loop) (ev : event) : bool :=
  match ev with
  | WriteTaskOut => forallb (termNotBehind gptr (st l)) (default [] (writingGroups l))
  | _ => true
  end.

(** The loop states a run passes through, up to a panic or an event that is
    not enabled. *)
Fixpoint statesOf (evs : list (env * event)) (l : loop) : list loop :=
  l :: match evs with
       | [] => []
       | (E, ev) :: evs' =>
           if enabled l ev then
             match step E ev l with
             | (_, Some l') => statesOf evs' l'
             | (_, None) => []
             end
           else []
       end.

(** No write-done step of the run applies a batch with a stale term for the
    object at [gptr]. *)
Fixpoint termsRespected (gptr : nat) (evs : list (env * event)) (l : loop) : bool :=
  match evs with
  | [] => true
  | (E, ev) :: evs' =>
      noStaleTerm gptr l ev &&
      if enabled l ev then
        match step E ev l with
        | (_, Some l') => termsRespected gptr evs' l'
        | (_, None) => true
        end
      else true
  end.

(** The values that [committedTerm] of the object at [gptr] takes along a
    run, from the state in which the object is allocated. *)
Definition termHistory (gptr : nat) (evs : list (env * event)) (l : loop) : list N :=
  omap (fun l => committedTerm <$> groupHeap (st l) !! gptr) (statesOf evs l).

Definition nonDecreasing (h : list N) : Prop :=
  forall i j ti tj, (i <= j)%nat -> h !! i = Some ti -> h !! j = Some tj -> ti <= tj.

(** A value is sent on the completion channel [c] of a proposal. *)
Definition isDone (c : nat) (e : effect) : bool :=
  match e with
  | ProposalDone c' _ => bool_decide (c' = c)
  | _ => false
  end.

(** Every group id registered for a node is a key of the group table. *)
Definition registeredGroupsLive (s : state) : Prop :=
  forall nid n groupID,
    nodes s !! nid = Some n -> groupID ∈ groupIDs n -> is_Some (groups s !! groupID).

(** Whether an error was sent on channel [c] of a create or remove
    operation. *)
Definition repliesError (c : nat) (o : list effect) : bool :=
  existsb (fun e =>
    match e with
    | OpReply c' (Some _) => bool_decide (c' = c)
    | _ => false
    end) o.

(** ** Concrete inputs used by the examples below *)

Module Ex.

(** Collaborators that never fail; storage knows the single member 1. *)
Definition quiet : env :=
  {| InitialState := fun _ => ([1], None);
     AppliedIndex := fun _ => (0, None);
     CreateGroupErr := fun _ => None;
     RemoveGroupErr := fun _ => None;
     SendErr := fun _ _ => None |}.

Definition noHardState : HardState := {| hsTerm := 0; hsVote := 0; hsCommit := 0 |}.
Definition noSnapshot : Snapshot :=
  {| snapIndex := 0; snapTerm := 0; snapData := EmptyString |}.

Definition ready (ss : option SoftState) (committed : list Entry)
    (msgs : list Message) : Ready :=
  {| rdSoftState := ss; rdHardState := noHardState; rdEntries := [];
     rdSnapshot := noSnapshot; rdCommittedEntries := committed;
     rdMessages := msgs |}.

(** An empty entry of the given term, as Raft appends on an election. *)
Definition emptyEntry (term index : N) : Entry :=
  {| entTerm := term; entIndex := index; entData := EntryNormal None |}.

Definition msg (t : MessageType) (from to : N) : Message :=
  {| msgType := t; msgTo := to; msgFrom := from;
     msgTerm := 1; msgIndex := 1; msgCommit := 0 |}.

(** Node 1 with a heartbeat every 3 ticks and no state machine. *)
Definition fresh1 : state := newState 1 3 false.

(** A state without groups holding one proposal for group 7 whose channel
    field is [ch]. *)
Definition orphan (ch : option nat) : proposal :=
  {| p_groupID := 7; p_commandID := "cmd"; p_fn := SubmitFn "x"; p_ch := ch |}.

Definition withOrphan (ch : option nat) : state :=
  set_proposalHeap (insert 0%nat (orphan ch)) fresh1.

(** The state a computation returns in, [s] when it panics. *)
Definition stateAfter {A} (m : M A) (s : state) : state :=
  match (m s).2 with
  | Ret _ s' => s'
  | Panic => s
  end.

(** Node 1 after creating group 7, whose only member is node 1. *)
Definition with7 : state := stateAfter (createGroup quiet 7) fresh1.

(** ... and group 8 as well. *)
Definition with78 : state := stateAfter (createGroup quiet 8) with7.

(** Node 1 has created group 7, stashed a batch for it and handed the batch
    to the write task; the write is in flight. *)
Definition inFlightRun : list (env * event) :=
  map (pair quiet)
    [CreateGroupChan {| cg_groupID := 7; cg_ch := 0%nat |};
     RaftReady (Some [(7, ready (Some {| ssLead := 1 |}) [emptyEntry 1 1] [])]);
     WriteReady].

Definition loopAfter (evs : list (env * event)) (l : loop) : loop :=
  match (run evs l).2 with
  | Running l' => l'
  | _ => l
  end.

Definition inFlight : loop := loopAfter inFlightRun (start fresh1).

(** The batch in flight is acknowledged. *)
Definition appliedRun : list (env * event) := inFlightRun ++ [(quiet, WriteTaskOut)].

(** Group 7 commits an entry of term 5 under leader 1, and then the embedded
    Raft delivers a batch whose last committed entry has term 3. *)
Definition decreasingRun : list (env * event) :=
  map (pair quiet)
    [CreateGroupChan {| cg_groupID := 7; cg_ch := 0%nat |};
     RaftReady (Some [(7, ready (Some {| ssLead := 1 |}) [emptyEntry 5 1] [])]);
     WriteReady; WriteTaskOut;
     RaftReady (Some [(7, ready None [emptyEntry 3 2] [])]);
     WriteReady; WriteTaskOut].

(** Storage that knows no member of any group yet, as for a replica that
    is only now being added. *)
Definition noMembers : env :=
  {| InitialState := fun _ => ([], None);
     AppliedIndex := fun _ => (0, None);
     CreateGroupErr := fun _ => None;
     RemoveGroupErr := fun _ => None;
     SendErr := fun _ _ => None |}.

(** Node 1 receives a vote request of node 2 for group 7, which it does not
    know, and creates the group; it answers node 2, which registers node 2
    for the group at send time; then the group is removed. *)
Definition staleRun : list (env * event) :=
  map (pair noMembers)
    [ReqChan {| reqGroupID := 7; reqMessage := msg MsgVote 2 1 |};
     RaftReady (Some [(7, ready None [] [msg MsgVoteResp 1 2])]);
     WriteReady; WriteTaskOut;
     RemoveGroupChan {| rg_groupID := 7; rg_ch := 1%nat |}].

(** The same with a group whose only member in storage is node 1 and which
    sends an append to node 2. *)
Definition staleRun' : list (env * event) :=
  map (pair quiet)
    [CreateGroupChan {| cg_groupID := 7; cg_ch := 0%nat |};
     RaftReady (Some [(7, ready None [] [msg MsgApp 1 2])]);
     WriteReady; WriteTaskOut;
     RemoveGroupChan {| rg_groupID := 7; rg_ch := 1%nat |}].

Definition stale : loop := loopAfter staleRun (start fresh1).

(** A coalesced heartbeat and a coalesced heartbeat response from node 2. *)
Definition heartbeatFrom2 : RaftMessageRequest := coalescedHeartbeatReq 2 1.
Definition heartbeatRespFrom2 : RaftMessageRequest :=
  {| reqGroupID := MaxUint64; reqMessage := heartbeatMsg 2 1 MsgHeartbeatResp |}.

(** A command is submitted to group 7 and dispatched; two elections (terms 1
    and 2) commit an empty entry each, so the pending proposal is re-queued
    twice; the group is removed; the two queued copies are dispatched. *)
Definition doubleSignalRun : list (env * event) :=
  map (pair quiet)
    [CreateGroupChan {| cg_groupID := 7; cg_ch := 0%nat |};
     SubmitCommand 7 "0123456789abcdef" "x";
     ProposalChan;
     RaftReady (Some [(7, ready (Some {| ssLead := 1 |}) [emptyEntry 1 1] [])]);
     WriteReady; WriteTaskOut;
     RaftReady (Some [(7, ready None [emptyEntry 2 2] [])]);
     WriteReady; WriteTaskOut;
     RemoveGroupChan {| rg_groupID := 7; rg_ch := 1%nat |};
     ProposalChan;
     ProposalChan].

(** A command is submitted to group 7 and dispatched; an election re-queues
    the pending proposal; the command commits, which completes the proposal;
    the group is removed; the queued copy is dispatched. *)
Definition silentRun : list (env * event) :=
  map (pair quiet)
    [CreateGroupChan {| cg_groupID := 7; cg_ch := 0%nat |};
     SubmitCommand 7 "0123456789abcdef" "x";
     ProposalChan;
     RaftReady (Some [(7, ready (Some {| ssLead := 1 |}) [emptyEntry 1 1] [])]);
     WriteReady; WriteTaskOut;
     RaftReady (Some [(7, ready None
                         [{| entTerm := 1; entIndex := 2;
                             entData := EntryNormal (Some "0123456789abcdefx") |}] [])]);
     WriteReady; WriteTaskOut;
     RemoveGroupChan {| rg_groupID := 7; rg_ch := 1%nat |};
     ProposalChan].

(** A batch of group 7 with a committed entry of term 5 is in flight when
    the group is removed and created again; the acknowledged batch is applied
    to the new group object, and the new Raft instance of the group then
    delivers its log from the start, an entry of term 1. *)
Definition recreateRun : list (env * event) :=
  map (pair quiet)
    [CreateGroupChan {| cg_groupID := 7; cg_ch := 0%nat |};
     RaftReady (Some [(7, ready (Some {| ssLead := 1 |}) [emptyEntry 5 9] [])]);
     WriteReady;
     RemoveGroupChan {| rg_groupID := 7; rg_ch := 1%nat |};
     CreateGroupChan {| cg_groupID := 7; cg_ch := 2%nat |};
     WriteTaskOut;
     RaftReady (Some [(7, ready (Some {| ssLead := 1 |}) [emptyEntry 1 1] [])]);
     WriteReady; WriteTaskOut].

(** A batch in which groups 7 and 8 each answer a heartbeat of node 2. *)
Definition twoResponses : list (N * Ready) :=
  [(7, ready None [] [msg MsgHeartbeatResp 1 2]);
   (8, ready None [] [msg MsgHeartbeatResp 1 2])].

End Ex.

(** ** Reasoning about the monad *)

Lemma bind_unfold {A B} (m : M A) (f : A -> M B) s :
  (m ≫= f) s =
  match m s with
  | (o1, Ret a s1) => let '(o2, r) := f a s1 in (o1 ++ o2, r)
  | (o1, Panic) => (o1, Panic)
  end.
Proof. reflexivity. Qed.

(** Closed goals about concrete runs are settled by evaluation, conjunct by
    conjunct. *)
Ltac by_compute :=
  repeat match goal with |- _ /\ _ => split end; vm_compute; reflexivity.

Ltac munfold :=
  unfold mbind, M_bind, ret, mret, M_ret, gets, modify, emit, panic,
    derefGroup, derefProposal.

(** ** Proposal dispatch (C7) *)

Lemma propose_missing s p pr :
  proposalHeap s !! p = Some pr ->
  groups s !! p_groupID pr = None ->
  propose p s =
    (match p_ch pr with
     | Some c => [ProposalDone c (Some (ErrGroupNotFound (p_groupID pr)))]
     | None => []
     end, Ret tt s).
Proof.
  intros Hp Hg. unfold propose. munfold. rewrite Hp. cbn. rewrite Hg.
  destruct (p_ch pr); reflexivity.
Qed.

Lemma propose_present s p pr gptr g :
  proposalHeap s !! p = Some pr ->
  groups s !! p_groupID pr = Some gptr ->
  groupHeap s !! gptr = Some g ->
  propose p s =
    (fst (callFn pr s),
     Ret tt (set_groupHeap (insert gptr (set_pending (insert (p_commandID pr) p) g)) s)).
Proof.
  intros Hp Hg Hh. unfold propose. munfold. rewrite Hp. cbn. rewrite Hg. cbn.
  rewrite Hh. cbn. unfold callFn, emit.
  assert (alter (set_pending (insert (p_commandID pr) p)) gptr (groupHeap s)
          = <[gptr := set_pending (insert (p_commandID pr) p) g]> (groupHeap s)) as Ha.
  { apply map_eq. intros i. rewrite lookup_alter, lookup_insert.
    repeat case_decide; subst; try congruence. by rewrite Hh. }
  unfold set_groupHeap. rewrite Ha. destruct (p_fn pr); reflexivity.
Qed.

Lemma callFn_invokes pr s :
  callFn pr s =
    ([match p_fn pr with
      | SubmitFn command => MNPropose (p_groupID pr) (p_commandID pr) command
      | MembershipFn changeType nid payload =>
          MNProposeConfChange (p_groupID pr) changeType nid (p_commandID pr) payload
      end], Ret tt s).
Proof. unfold callFn, emit. destruct (p_fn pr); reflexivity. Qed.

(** C7, as the code has it. A proposal dispatched for a group id that is not
    in the group table: an error naming the group is delivered on the
    completion channel when the channel field is still non-nil, and nothing is
    delivered when it is nil (a re-queued proposal that has already been
    completed); either way the thunk is not invoked and the state is
    unchanged. When the group exists the proposal is recorded in the group's
    pending map under its command id, nothing else changes, and the thunk is
    invoked (its call into the embedded Raft is the only effect). *)
Theorem propose_dispatch s p pr :
  proposalHeap s !! p = Some pr ->
  match groups s !! p_groupID pr with
  | None =>
      propose p s =
        (match p_ch pr with
         | Some c => [ProposalDone c (Some (ErrGroupNotFound (p_groupID pr)))]
         | None => []
         end, Ret tt s)
  | Some gptr =>
      forall g, groupHeap s !! gptr = Some g ->
      propose p s =
        ([match p_fn pr with
          | SubmitFn command => MNPropose (p_groupID pr) (p_commandID pr) command
          | MembershipFn changeType nid payload =>
              MNProposeConfChange (p_groupID pr) changeType nid (p_commandID pr) payload
          end],
         Ret tt (set_groupHeap
                   (insert gptr (set_pending (insert (p_commandID pr) p) g)) s))
  end.
Proof.
  intros Hp. destruct (groups s !! p_groupID pr) as [gptr|] eqn:Hg.
  - intros g Hh. rewrite (propose_present s p pr gptr g Hp Hg Hh).
    by rewrite callFn_invokes.
  - by apply propose_missing.
Qed.

Lemma propose_dispatch_witness :
  proposalHeap (Ex.withOrphan (Some 5%nat)) !! 0%nat = Some (Ex.orphan (Some 5%nat)) /\
  propose 0 (Ex.withOrphan (Some 5%nat)) =
    ([ProposalDone 5 (Some (ErrGroupNotFound 7))], Ret tt (Ex.withOrphan (Some 5%nat))).
Proof.
  split; [reflexivity|].
  exact (propose_dispatch (Ex.withOrphan (Some 5%nat)) 0%nat (Ex.orphan (Some 5%nat)) eq_refl).
Defined.

(** C7 as stated fails: a proposal whose channel field is nil, dispatched for
    a group that is not in the table, is dropped without any error being
    delivered. *)
Lemma propose_unknown_group_not_always_failed :
  ~ (forall s p pr,
       proposalHeap s !! p = Some pr ->
       groups s !! p_groupID pr = None ->
       exists c err, In (ProposalDone c (Some err)) (fst (propose p s))).
Proof.
  intros H.
  destruct (H (Ex.withOrphan None) 0%nat (Ex.orphan None) eq_refl eq_refl)
    as (c & err & Hin).
  vm_compute in Hin. exact Hin.
Qed.

(** Such a dispatch happens: the proposal is completed by the commit (nil on
    channel 0), and the copy that the election had queued is dispatched after
    the group is gone, with no further value on the channel. *)
Example completed_proposal_dropped_silently :
  exists l,
    (run Ex.silentRun (start Ex.fresh1)).2 = Running l /\
    List.filter (isDone 0) (run Ex.silentRun (start Ex.fresh1)).1 = [ProposalDone 0 None] /\
    proposalChan (st l) = [] /\
    p_ch <$> proposalHeap (st l) !! 0%nat = Some None.
Proof. exists (Ex.loopAfter Ex.silentRun (start Ex.fresh1)). by_compute. Qed.

(** ** State invariants and effect footprints of monadic code *)

Lemma hoare_ret {A} (P : state -> Prop) (a : A) (Q : A -> state -> Prop) :
  (forall s, P s -> Q a s) -> hoare P (ret a) Q.
Proof. intros H s Hs. by apply H. Qed.

Lemma hoare_bind {A B} (P : state -> Prop) (m : M A) (f : A -> M B) (R : A -> state -> Prop)
    (Q : B -> state -> Prop) :
  hoare P m R -> (forall a, hoare (R a) (f a) Q) -> hoare P (m ≫= f) Q.
Proof.
  intros Hm Hf s Hs. specialize (Hm s Hs). rewrite bind_unfold.
  destruct (m s) as [o1 [a s1|]]; cbn in *; [|done].
  specialize (Hf a s1 Hm). destruct (f a s1) as [o2 r]. exact Hf.
Qed.

Lemma hoare_gets {A} (P : state -> Prop) (f : state -> A) (Q : A -> state -> Prop) :
  (forall s, P s -> Q (f s) s) -> hoare P (gets f) Q.
Proof. intros H s Hs. by apply H. Qed.

Lemma hoare_panic {A} (P : state -> Prop) (Q : A -> state -> Prop) : hoare P panic Q.
Proof. by intros s Hs. Qed.

Lemma hoare_weaken {A} (P P' : state -> Prop) (m : M A) (Q Q' : A -> state -> Prop) :
  hoare P' m Q' -> (forall s, P s -> P' s) -> (forall a s, Q' a s -> Q a s) ->
  hoare P m Q.
Proof.
  intros H HP HQ s Hs. specialize (H s (HP s Hs)).
  destruct (m s).2; [by apply HQ|done].
Qed.

Lemma emits_ret {A} (Φ : effect -> Prop) (a : A) : emits Φ (ret a).
Proof. intros s. constructor. Qed.

Lemma emits_bind {A B} (Φ : effect -> Prop) (m : M A) (f : A -> M B) :
  emits Φ m -> (forall a, emits Φ (f a)) -> emits Φ (m ≫= f).
Proof.
  intros Hm Hf s. specialize (Hm s). rewrite bind_unfold.
  destruct (m s) as [o1 [a s1|]]; cbn in *; [|done].
  specialize (Hf a s1). destruct (f a s1) as [o2 r]. cbn in *.
  by apply Forall_app.
Qed.

Lemma emits_gets {A} (Φ : effect -> Prop) (f : state -> A) : emits Φ (gets f).
Proof. intros s. constructor. Qed.

Lemma emits_panic {A} (Φ : effect -> Prop) : emits Φ (@panic A).
Proof. intros s. constructor. Qed.

Lemma hoare_modify P (f : state -> state) (Q : unit -> state -> Prop) :
  (forall s, P s -> Q tt (f s)) -> hoare P (modify f) Q.
Proof. intros H s Hs. by apply H. Qed.

Lemma hoare_emit P e (Q : unit -> state -> Prop) :
  (forall s, P s -> Q tt s) -> hoare P (emit e) Q.
Proof. intros H s Hs. by apply H. Qed.

Lemma hoare_forM {A} (I : state -> Prop) (l : list A) (body : A -> M unit) :
  (forall x, x ∈ l -> hoare I (body x) (fun _ => I)) ->
  hoare I (forM_ l body) (fun _ => I).
Proof.
  induction l as [|x l IH]; intros Hb.
  - by apply hoare_ret.
  - cbn [forM_]. apply hoare_bind with (R := fun _ => I).
    + apply Hb. left.
    + intros _. apply IH. intros y Hy. apply Hb. by right.
Qed.

Lemma hoare_derefGroup P gp (Q : group -> state -> Prop) :
  (forall s g, P s -> gp ≫= (fun p => groupHeap s !! p) = Some g -> Q g s) ->
  hoare P (derefGroup gp) Q.
Proof.
  intros H s Hs. unfold derefGroup.
  destruct (gp ≫= _) as [g|] eqn:Hg; cbn; [by apply H|done].
Qed.

Lemma hoare_derefProposal P p (Q : proposal -> state -> Prop) :
  (forall s pr, P s -> proposalHeap s !! p = Some pr -> Q pr s) ->
  hoare P (derefProposal p) Q.
Proof.
  intros H s Hs. unfold derefProposal.
  destruct (proposalHeap s !! p) as [pr|] eqn:Hp; cbn; [by apply H|done].
Qed.

Lemma emits_modify Φ f : emits Φ (modify f).
Proof. intros s. constructor. Qed.

Lemma emits_emit (Φ : effect -> Prop) e : Φ e -> emits Φ (emit e).
Proof. intros H s. by repeat constructor. Qed.

Lemma emits_forM {A} Φ (l : list A) (body : A -> M unit) :
  (forall x, emits Φ (body x)) -> emits Φ (forM_ l body).
Proof.
  intros Hb. induction l as [|x l IH]; cbn [forM_].
  - apply emits_ret.
  - apply emits_bind; [apply Hb|by intros _].
Qed.

Lemma emits_derefGroup Φ gp : emits Φ (derefGroup gp).
Proof. intros s. unfold derefGroup. destruct (gp ≫= _); constructor. Qed.

Lemma emits_derefProposal Φ p : emits Φ (derefProposal p).
Proof. intros s. unfold derefProposal. destruct (proposalHeap s !! p); constructor. Qed.

(** A property of the state that only depends on the group table is kept by
    the peer registry. *)
Lemma addNode_groups (I : gmap N nat -> Prop) nid gids :
  hoare (fun s => I (groups s)) (addNode nid gids) (fun _ s => I (groups s)).
Proof.
  unfold addNode. eapply hoare_bind with (R := fun _ s => I (groups s)).
  { by apply hoare_gets. }
  intros gs. destruct (List.find _ gids).
  { by apply hoare_ret. }
  eapply hoare_bind with (R := fun _ s => I (groups s)).
  { by apply hoare_modify. }
  intros _. eapply hoare_bind with (R := fun _ s => I (groups s)).
  { apply hoare_forM. intros x _. by apply hoare_modify. }
  intros _. by apply hoare_ret.
Qed.

Lemma addNodes_groups (I : gmap N nat -> Prop) cs groupID :
  hoare (fun s => I (groups s)) (addNodes cs groupID) (fun _ s => I (groups s)).
Proof.
  induction cs as [|nid cs IH]; cbn [addNodes].
  { by apply hoare_ret. }
  apply hoare_bind with (R := fun _ s => I (groups s)); [apply addNode_groups|].
  intros [e|]; [by apply hoare_ret|apply IH].
Qed.

(** ** Group creation (C8) *)

Lemma createGroup_present E s groupID :
  is_Some (groups s !! groupID) ->
  createGroup E groupID s = ([], Ret None s).
Proof.
  intros [gp Hgp]. unfold createGroup. rewrite bind_unfold. cbn. by rewrite Hgp.
Qed.

Lemma createGroup_registers E groupID :
  hoare (fun _ => True) (createGroup E groupID)
    (fun err s => err = None -> is_Some (groups s !! groupID)).
Proof.
  unfold createGroup.
  apply hoare_bind with (R := fun gp s => gp = groups s !! groupID).
  { by apply hoare_gets. }
  intros [gp|].
  { apply hoare_ret. intros s <- _. done. }
  destruct (InitialState E groupID) as [cs [e|]].
  { by apply hoare_ret. }
  apply hoare_bind with (R := fun _ _ => True); [by apply hoare_gets|].
  intros sm. destruct (if sm : bool then _ else _) as [appliedIndex [e|]].
  { by apply hoare_ret. }
  apply hoare_bind with (R := fun _ _ => True); [by apply hoare_emit|].
  intros _. destruct (CreateGroupErr E groupID).
  { by apply hoare_ret. }
  apply hoare_bind with (R := fun _ s => is_Some (groups s !! groupID)).
  { apply hoare_modify. intros s _. cbn. rewrite lookup_insert_eq. done. }
  intros _.
  apply hoare_bind with (R := fun _ s => is_Some (groups s !! groupID)).
  { apply (addNodes_groups (fun gs => is_Some (gs !! groupID))). }
  intros [e|]; [by apply hoare_ret|].
  apply hoare_bind with (R := fun _ s => is_Some (groups s !! groupID)).
  { by apply hoare_gets. }
  intros self.
  apply hoare_bind with (R := fun _ s => is_Some (groups s !! groupID)).
  { case_bool_decide; [by apply hoare_emit|by apply hoare_ret]. }
  intros _. by apply hoare_ret.
Qed.

(** C8. [createGroup] on a group id that is already in the group table
    returns nil, performs no effect and leaves the state as it is
    ([createGroup_present]). A call that succeeds leaves the id in the table,
    so a second call, whatever the collaborators would answer, succeeds too
    and changes nothing: the table still holds the one group object, and the
    embedded Raft is not asked to create the group again. *)
Theorem createGroup_idempotent E1 s groupID o s' :
  createGroup E1 groupID s = (o, Ret None s') ->
  is_Some (groups s' !! groupID) /\
  forall E2, createGroup E2 groupID s' = ([], Ret None s').
Proof.
  intros Hrun.
  assert (is_Some (groups s' !! groupID)) as Hin.
  { pose proof (createGroup_registers E1 groupID s I) as H.
    rewrite Hrun in H. by apply H. }
  split; [done|]. intros E2. by apply createGroup_present.
Qed.

Lemma createGroup_idempotent_witness :
  createGroup Ex.quiet 7 Ex.fresh1 =
    ([MNCreateGroup 7 0; MNCampaign 7], Ret None Ex.with7) /\
  is_Some (groups Ex.with7 !! 7) /\
  forall E2, createGroup E2 7 Ex.with7 = ([], Ret None Ex.with7).
Proof.
  assert (createGroup Ex.quiet 7 Ex.fresh1 =
            ([MNCreateGroup 7 0; MNCampaign 7], Ret None Ex.with7)) as H
    by (vm_compute; reflexivity).
  split; [exact H|].
  exact (createGroup_idempotent Ex.quiet Ex.fresh1 7 _ _ H).
Defined.

(** ** Group removal (C9) *)

Lemma removeGroup_absent E s op :
  groups s !! rg_groupID op = None ->
  removeGroup E op s = ([OpReply (rg_ch op) None], Ret tt s).
Proof.
  intros Hg. unfold removeGroup. rewrite bind_unfold. cbn. by rewrite Hg.
Qed.

(** The loop of [removeGroup] over the members leaves the group table alone. *)
Lemma unregister_all_groups (I : gmap N nat -> Prop) groupID cs :
  hoare (fun s => I (groups s))
    (forM_ cs (fun nid =>
       n ← gets (fun s => nodes s !! nid);
       match n with
       | None => panic
       | Some _ => modify (set_nodes (alter (unregisterGroup groupID) nid))
       end))
    (fun _ s => I (groups s)).
Proof.
  apply hoare_forM. intros nid _.
  apply hoare_bind with (R := fun _ s => I (groups s)); [by apply hoare_gets|].
  intros [n|]; [by apply hoare_modify|apply hoare_panic].
Qed.

Lemma repliesError_cons c e err o :
  repliesError c (e :: OpReply c (Some err) :: o) = true.
Proof.
  unfold repliesError. cbn. rewrite bool_decide_eq_true_2 by done.
  by rewrite orb_true_r.
Qed.

Lemma removeGroup_removes E op s o s' :
  removeGroup E op s = (o, Ret tt s') ->
  repliesError (rg_ch op) o = false ->
  groups s' !! rg_groupID op = None.
Proof.
  intros Hrun Hok. unfold removeGroup in Hrun. rewrite bind_unfold in Hrun.
  cbn in Hrun. destruct (groups s !! rg_groupID op) as [gp|] eqn:Hg.
  2:{ by injection Hrun as <- <-. }
  rewrite bind_unfold in Hrun. cbn in Hrun.
  destruct (RemoveGroupErr E (rg_groupID op)) as [e|].
  { injection Hrun as <- <-. by rewrite repliesError_cons in Hok. }
  destruct (InitialState E (rg_groupID op)) as [cs [e|]].
  { rewrite bind_unfold in Hrun. cbn in Hrun.
    match type of Hrun with context [?m s] => destruct (m s) as [o2 r] end.
    injection Hrun as <- _. by rewrite repliesError_cons in Hok. }
  rewrite bind_unfold in Hrun. cbn in Hrun.
  rewrite bind_unfold in Hrun.
  pose proof (unregister_all_groups (fun gs => gs = groups s) (rg_groupID op) cs s eq_refl)
    as Hloop.
  destruct (forM_ cs _ s) as [o1 [[] s1|]]; cbn in Hrun, Hloop; [|by destruct o1].
  injection Hrun as <- <-. cbn. rewrite Hloop. apply lookup_delete_eq.
Qed.

(** C9. [removeGroup] on a group id that is not in the group table replies
    nil and leaves the whole state unchanged ([removeGroup_absent]). A removal
    that completes without replying an error leaves the id out of the table,
    so a second removal of the same id, whatever the collaborators would
    answer, replies nil and changes nothing. *)
Theorem removeGroup_idempotent E1 op1 s o s' :
  removeGroup E1 op1 s = (o, Ret tt s') ->
  repliesError (rg_ch op1) o = false ->
  groups s' !! rg_groupID op1 = None /\
  forall E2 op2, rg_groupID op2 = rg_groupID op1 ->
    removeGroup E2 op2 s' = ([OpReply (rg_ch op2) None], Ret tt s').
Proof.
  intros Hrun Hok.
  pose proof (removeGroup_removes E1 op1 s o s' Hrun Hok) as Hgone.
  split; [done|]. intros E2 op2 Heq. apply removeGroup_absent. by rewrite Heq.
Qed.

Lemma removeGroup_idempotent_witness :
  let op := {| rg_groupID := 7; rg_ch := 1%nat |} in
  let s' := Ex.stateAfter (removeGroup Ex.quiet op) Ex.with7 in
  removeGroup Ex.quiet op Ex.with7 = ([MNRemoveGroup 7; OpReply 1 None], Ret tt s') /\
  is_Some (groups Ex.with7 !! 7) /\
  groups s' !! 7 = None /\
  forall E2 op2, rg_groupID op2 = 7 ->
    removeGroup E2 op2 s' = ([OpReply (rg_ch op2) None], Ret tt s').
Proof.
  intros op s'.
  assert (removeGroup Ex.quiet op Ex.with7 =
            ([MNRemoveGroup 7; OpReply 1 None], Ret tt s')) as H
    by (vm_compute; reflexivity).
  split; [exact H|]. split; [eexists; vm_compute; reflexivity|].
  exact (removeGroup_idempotent Ex.quiet op Ex.with7 _ s' H eq_refl).
Defined.

(** ** Loops that only read the state *)

Lemma forM_readonly {A} (l : list A) (body : A -> M unit) (f : A -> list effect) s :
  (forall x, x ∈ l -> body x s = (f x, Ret tt s)) ->
  forM_ l body s = (l ≫= f, Ret tt s).
Proof.
  induction l as [|x l IH]; intros Hb; [reflexivity|].
  cbn [forM_]. rewrite bind_unfold, (Hb x) by left.
  rewrite IH by (intros y Hy; apply Hb; by right). reflexivity.
Qed.

Lemma forM_panics {A} (l : list A) (body : A -> M unit) s x :
  x ∈ l ->
  (body x s).2 = Panic ->
  (forall y, y ∈ l -> (body y s).2 = Panic \/ (body y s).2 = Ret tt s) ->
  (forM_ l body s).2 = Panic.
Proof.
  induction l as [|y l IH]; intros Hx Hp Hb; [by apply elem_of_nil in Hx|].
  cbn [forM_]. rewrite bind_unfold.
  apply elem_of_cons in Hx as [->|Hx].
  { destruct (body y s) as [o1 r]; cbn in Hp; by subst. }
  destruct (Hb y (list_elem_of_here _ _)) as [Hy|Hy].
  - destruct (body y s) as [o1 r]; cbn in Hy; by subst.
  - destruct (body y s) as [o1 r]; cbn in Hy; subst.
    rewrite <- (IH Hx Hp) by (intros z Hz; apply Hb; by right).
    by destruct (forM_ l body s).
Qed.

(** ** The coalesced-heartbeat emitter (C2) *)

Lemma coalescedHeartbeat_run s :
  coalescedHeartbeat s =
    ((map_to_list (nodes s)).*1 ≫= heartbeatTo (nodeID s), Ret tt s).
Proof.
  unfold coalescedHeartbeat. rewrite bind_unfold. unfold gets at 1.
  cbv iota beta. rewrite bind_unfold. unfold gets at 1. cbv iota beta.
  rewrite (forM_readonly _ _ (fun '(to, _) => heartbeatTo (nodeID s) to)).
  - cbn [app]. f_equal.
    induction (map_to_list (nodes s)) as [|[to n] l IH]; [done|].
    cbn. by rewrite IH.
  - intros [to n] _. unfold heartbeatTo. by case_bool_decide.
Qed.

Lemma heartbeatTo_filter self (l : list N) :
  l ≫= heartbeatTo self =
  (fun to => TransportSend to (coalescedHeartbeatReq self to))
    <$> filter (fun to => to ≠ self) l.
Proof.
  induction l as [|to l IH]; [done|].
  cbn. rewrite IH. unfold heartbeatTo, filter. cbn.
  destruct (decide (to = self)) as [->|Hne].
  - rewrite bool_decide_eq_true_2 by done.
    by rewrite decide_False by (intros H; by apply H).
  - rewrite bool_decide_eq_false_2 by done. by rewrite decide_True by done.
Qed.

Lemma peers_perm (ns : gmap N node) (self : N) :
  filter (fun to => to ≠ self) (map_to_list ns).*1 ≡ₚ elements (dom ns ∖ {[self]}).
Proof.
  apply NoDup_Permutation.
  - apply NoDup_filter, NoDup_fst_map_to_list.
  - apply NoDup_elements.
  - intros to. rewrite list_elem_of_filter, elem_of_elements, elem_of_difference,
      elem_of_singleton, elem_of_dom.
    rewrite list_elem_of_fmap. split.
    + intros [Hne ([to' n] & -> & Hin)]. apply elem_of_map_to_list in Hin. eauto.
    + intros [[n Hn] Hne]. split; [done|]. exists (to, n). split; [done|].
      by apply elem_of_map_to_list.
Qed.

(** C2. One run of the coalesced-heartbeat emitter, in any state (whatever
    the groups are): it returns without changing the state, and its effects
    are, up to the order in which the node table is ranged over, one transport
    send per registered node other than the local one, each to that node,
    with the sentinel group id [MaxUint64], type [MsgHeartbeat] and [From] the
    local node id; so the number of sends is the number of registered
    non-local nodes. *)
Theorem coalescedHeartbeat_one_per_peer s :
  exists o,
    coalescedHeartbeat s = (o, Ret tt s) /\
    o ≡ₚ (fun to =>
            TransportSend to
              {| reqGroupID := MaxUint64;
                 reqMessage := {| msgType := MsgHeartbeat; msgTo := to;
                                  msgFrom := nodeID s; msgTerm := 0;
                                  msgIndex := 0; msgCommit := 0 |} |})
           <$> elements (dom (nodes s) ∖ {[nodeID s]}) /\
    length o = size (dom (nodes s) ∖ {[nodeID s]}).
Proof.
  eexists. split; [apply coalescedHeartbeat_run|].
  rewrite heartbeatTo_filter.
  assert (forall l1 l2 : list N, l1 ≡ₚ l2 ->
            (fun to => TransportSend to (coalescedHeartbeatReq (nodeID s) to)) <$> l1
            ≡ₚ (fun to => TransportSend to (coalescedHeartbeatReq (nodeID s) to)) <$> l2)
    as Hperm by (intros l1 l2 H; by rewrite H).
  split.
  - apply Hperm, peers_perm.
  - rewrite length_fmap. unfold size, set_size. cbn.
    by rewrite (Permutation_length (peers_perm (nodes s) (nodeID s))).
Qed.

(** The emitter runs on the tick that takes the counter to
    [HeartbeatIntervalTicks], which resets the counter: with the counter in
    [0, HeartbeatIntervalTicks) this is every [HeartbeatIntervalTicks]-th
    tick. *)
Lemma tick_step E l :
  let fire := bool_decide (HeartbeatIntervalTicks (st l) ≤ ticks l + 1)%Z in
  step E TickerChan l =
    (MNTick :: (if fire then (coalescedHeartbeat (st l)).1 else []),
     Some {| st := st l; readyGroups := readyGroups l;
             writingGroups := writingGroups l;
             ticks := if fire then 0%Z else (ticks l + 1)%Z;
             writer := writer l; running := running l |}).
Proof.
  intros fire. unfold step, inLoop. fold fire. rewrite bind_unfold. cbn.
  destruct fire; [|done]. by rewrite coalescedHeartbeat_run.
Qed.

Lemma tick_counter E l l' o :
  (0 <= ticks l < HeartbeatIntervalTicks (st l))%Z ->
  step E TickerChan l = (o, Some l') ->
  (0 <= ticks l' < HeartbeatIntervalTicks (st l'))%Z /\
  (ticks l' = 0%Z <-> (ticks l + 1)%Z = HeartbeatIntervalTicks (st l)) /\
  (ticks l' ≠ 0%Z -> o = [MNTick]).
Proof.
  intros Hrange. rewrite tick_step. intros [= <- <-]. cbn.
  case_bool_decide; cbn; repeat split; intros; try lia; done.
Qed.

(** ** Heartbeat fan-out (C4) *)

Lemma fanout_body s req groupID l :
  leaderOf s groupID = Some l ->
  (gp ← gets (fun s => groups s !! groupID);
   g ← derefGroup gp;
   if bool_decide (leader g ≠ msgFrom (reqMessage req))
      || bool_decide (msgFrom (reqMessage req) = nodeID s)
   then ret tt
   else emit (MNStep groupID (reqMessage req))) s
  = (fanoutStep s req groupID, Ret tt s).
Proof.
  unfold fanoutStep, leaderOf. intros Hl. rewrite bind_unfold. cbn.
  rewrite bind_unfold. unfold derefGroup.
  destruct (groups s !! groupID ≫= _) as [g|] eqn:Hg; [|done].
  cbn in Hl. injection Hl as <-. cbn.
  repeat case_bool_decide; cbn; try reflexivity; exfalso; try (intuition congruence).
  apply H1. split; [by f_equal|done].
Qed.

Lemma fanout_body_missing s req groupID :
  leaderOf s groupID = None ->
  ((gp ← gets (fun s => groups s !! groupID);
    g ← derefGroup gp;
    if bool_decide (leader g ≠ msgFrom (reqMessage req))
       || bool_decide (msgFrom (reqMessage req) = nodeID s)
    then ret tt
    else emit (MNStep groupID (reqMessage req))) s).2 = Panic.
Proof.
  unfold leaderOf. intros Hl. rewrite bind_unfold. cbn.
  rewrite bind_unfold. unfold derefGroup.
  by destruct (groups s !! groupID ≫= _) as [g|] eqn:Hg.
Qed.

(** A heartbeat from a node that is not registered: nothing is stepped and
    one bare response goes back. *)
Lemma fanoutHeartbeat_unknown s req :
  nodes s !! msgFrom (reqMessage req) = None ->
  fanoutHeartbeat req s =
    ([TransportSend (msgFrom (reqMessage req))
        {| reqGroupID := MaxUint64;
           reqMessage := {| msgType := MsgHeartbeatResp; msgTo := 0;
                            msgFrom := nodeID s; msgTerm := 0;
                            msgIndex := 0; msgCommit := 0 |} |}],
     Ret tt s).
Proof.
  intros Hn. unfold fanoutHeartbeat. rewrite bind_unfold. unfold gets at 1.
  cbv iota beta. rewrite bind_unfold. unfold gets at 1. cbv iota beta.
  by rewrite Hn.
Qed.

(** A heartbeat from a registered node, all of whose groups are in the group
    table: the state is unchanged and the message is stepped into exactly the
    groups of the node's set whose recorded leader is the sender, the sender
    not being the local node. *)
Lemma fanoutHeartbeat_known s req n :
  nodes s !! msgFrom (reqMessage req) = Some n ->
  (forall groupID, groupID ∈ groupIDs n -> is_Some (leaderOf s groupID)) ->
  fanoutHeartbeat req s =
    (elements (groupIDs n) ≫= fanoutStep s req, Ret tt s).
Proof.
  intros Hn Hall. unfold fanoutHeartbeat. rewrite bind_unfold.
  unfold gets at 1. cbv iota beta. rewrite bind_unfold. unfold gets at 1.
  cbv iota beta. rewrite Hn.
  rewrite (forM_readonly _ _ (fanoutStep s req)); [done|].
  intros groupID Hin. apply elem_of_elements in Hin.
  destruct (Hall groupID Hin) as [l Hl]. by apply (fanout_body s req groupID l).
Qed.

(** A heartbeat from a registered node one of whose groups is not in the
    group table: the lookup yields nil and reading [leader] through it
    panics. *)
Lemma fanoutHeartbeat_missing_group s req n groupID :
  nodes s !! msgFrom (reqMessage req) = Some n ->
  groupID ∈ groupIDs n ->
  leaderOf s groupID = None ->
  (fanoutHeartbeat req s).2 = Panic.
Proof.
  intros Hn Hin Hmiss. unfold fanoutHeartbeat. rewrite bind_unfold.
  unfold gets at 1. cbv iota beta. rewrite bind_unfold. unfold gets at 1.
  cbv iota beta. rewrite Hn.
  match goal with |- context [forM_ ?l ?body s] =>
    assert ((forM_ l body s).2 = Panic) as Hp end.
  { apply forM_panics with (x := groupID).
    - by apply elem_of_elements.
    - by apply fanout_body_missing.
    - intros y _. destruct (leaderOf s y) as [l|] eqn:Hl.
      + right. by rewrite (fanout_body s req y l Hl).
      + left. by apply fanout_body_missing. }
  destruct (forM_ _ _ s) as [o r]. cbn in Hp. by subst.
Qed.

(** ** Heartbeats in the write-done path (C3) *)

Lemma count_app p o1 o2 : count p (o1 ++ o2) = (count p o1 + count p o2)%nat.
Proof. unfold count. by rewrite List.filter_app, length_app. Qed.

Lemma count_none p o : Forall (fun e => p e = false) o -> count p o = 0%nat.
Proof.
  unfold count. induction 1 as [|e o He _ IH]; [done|]. cbn. by rewrite He.
Qed.

Lemma bind_effects {A B} (m : M A) (f : A -> M B) s :
  ((m ≫= f) s).1 =
  (m s).1 ++ match (m s).2 with Ret a s1 => (f a s1).1 | Panic => [] end.
Proof.
  rewrite bind_unfold. destruct (m s) as [o1 [a s1|]]; cbn.
  - by destruct (f a s1).
  - by rewrite app_nil_r.
Qed.

Lemma forM_modify {A} (l : list A) (f : A -> state -> state) s :
  forM_ l (fun x => modify (f x)) s = ([], Ret tt (foldl (fun s x => f x s) s l)).
Proof.
  revert s. induction l as [|x l IH]; intros s; [done|].
  cbn [forM_]. rewrite bind_unfold. cbn. by rewrite IH.
Qed.

Lemma addNode_run nid gids s :
  exists err s', addNode nid gids s = ([], Ret err s').
Proof.
  unfold addNode. rewrite bind_unfold. cbn.
  destruct (List.find _ gids); [by eexists _, _|].
  rewrite bind_unfold. cbn. rewrite bind_unfold, forM_modify. by eexists _, _.
Qed.

Lemma sendMessage_run E groupID msg s :
  exists s',
    sendMessage E groupID msg s =
      (TransportSend (msgTo msg) {| reqGroupID := groupID; reqMessage := msg |}
         :: sendReports E groupID msg, Ret tt s').
Proof.
  unfold sendMessage, sendReports. rewrite bind_unfold. cbn [gets].
  rewrite bind_unfold.
  assert (exists s1, (match nodes s !! msgTo msg with
                      | Some _ => ret ()
                      | None => addNode (msgTo msg) [groupID] ≫= fun _ => ret ()
                      end) s = ([], Ret tt s1)) as [s1 ->].
  { destruct (nodes s !! msgTo msg); [by eexists|].
    rewrite bind_unfold. destruct (addNode_run (msgTo msg) [groupID] s) as (err & s1 & ->).
    by eexists. }
  exists s1. rewrite bind_unfold. cbn. rewrite bind_unfold.
  destruct (SendErr E _ _); cbn; case_bool_decide; reflexivity.
Qed.

Lemma onlySends_heartbeat : onlySends isHeartbeatSend.
Proof. by intros []. Qed.

Lemma onlySends_resp groupID to : onlySends (isRespSend groupID to).
Proof. by intros []. Qed.

Lemma sendReports_notSend E groupID msg : Forall notSend (sendReports E groupID msg).
Proof.
  unfold sendReports. apply Forall_app. split.
  - destruct (SendErr E _ _); repeat constructor.
  - case_bool_decide; repeat constructor.
Qed.

Lemma count_notSend p o : onlySends p -> Forall notSend o -> count p o = 0%nat.
Proof.
  intros Hp Ho. apply count_none. eapply Forall_impl; [exact Ho|]. intros e. apply Hp.
Qed.

Lemma count_sendMessage p E groupID msg s :
  onlySends p ->
  count p (sendMessage E groupID msg s).1 =
    if p (TransportSend (msgTo msg) {| reqGroupID := groupID; reqMessage := msg |})
    then 1%nat else 0%nat.
Proof.
  intros Hp. destruct (sendMessage_run E groupID msg s) as [s' ->]. cbn [fst].
  change (?e :: ?o) with ([e] ++ o). rewrite count_app.
  rewrite (count_notSend p (sendReports _ _ _)) by (done || apply sendReports_notSend).
  unfold count. cbn. destruct (p _); reflexivity.
Qed.

Lemma sendMessages_sends E groupID msgs : forall noMore s,
  let o := (sendMessages E groupID msgs noMore s).1 in
  count isHeartbeatSend o = 0%nat /\
  (forall g' to, g' ≠ groupID -> count (isRespSend g' to) o = 0%nat) /\
  (forall to, (count (isRespSend groupID to) o <= 1)%nat /\
              (to ∈ noMore -> count (isRespSend groupID to) o = 0%nat)).
Proof.
  induction msgs as [|msg rest IH]; intros noMore s; cbn zeta.
  { cbn. repeat split; intros; unfold count; cbn; lia. }
  assert (forall nm,
    let o := ((sendMessage E groupID msg;; sendMessages E groupID rest nm) s).1 in
    (msgType msg ≠ MsgHeartbeat) ->
    (msgType msg = MsgHeartbeatResp -> msgTo msg ∈ nm) ->
    count isHeartbeatSend o = 0%nat /\
    (forall g' to, g' ≠ groupID -> count (isRespSend g' to) o = 0%nat) /\
    (forall to, (count (isRespSend groupID to) o <= 1)%nat /\
       (to ∈ nm -> to ≠ msgTo msg \/ msgType msg ≠ MsgHeartbeatResp ->
        count (isRespSend groupID to) o = 0%nat))) as Hsend.
  { intros nm o Hhb Hresp. subst o. rewrite bind_effects.
    pose proof (count_sendMessage isHeartbeatSend E groupID msg s onlySends_heartbeat) as C1.
    pose proof (fun g' to => count_sendMessage (isRespSend g' to) E groupID msg s
                               (onlySends_resp g' to)) as C2.
    destruct (sendMessage_run E groupID msg s) as [s' Hrun].
    destruct (sendMessage E groupID msg s) as [o1 r1]. injection Hrun as _ ->.
    cbn [fst snd] in *.
    destruct (IH nm s') as (IH1 & IH2 & IH3).
    split; [|split].
    - rewrite count_app, IH1, C1. cbn. by rewrite bool_decide_eq_false_2.
    - intros g' to Hne. rewrite count_app, IH2, C2 by done.
      cbn. rewrite (bool_decide_eq_false_2 (groupID = g')) by done.
      by rewrite andb_false_r.
    - intros to. rewrite count_app, C2.
      destruct (IH3 to) as [Hle Hz]. cbn.
      destruct (decide (msgTo msg = to)) as [<-|Hto];
        [destruct (decide (msgType msg = MsgHeartbeatResp)) as [Hty|Hty]|].
      + rewrite Hz by auto. split; [destruct (_ && _); lia|]. intros _ [?|?]; done.
      + rewrite (bool_decide_eq_false_2 (msgType msg = _)) by done.
        rewrite andb_false_r. split; [lia|]. intros Hin _. rewrite Hz; done.
      + rewrite (bool_decide_eq_false_2 (msgTo msg = to)) by done. cbn.
        split; [lia|]. intros Hin _. by apply Hz. }
  cbn [sendMessages].
  destruct (msgType msg) eqn:Hty;
    try (destruct (Hsend noMore) as (H1 & H2 & H3); [done|done|];
         split; [exact H1|split; [exact H2|]]; intros to;
         destruct (H3 to) as [Hle Hz]; split; [exact Hle|];
         intros Hin; apply Hz; [done|by right]).
  - apply IH.
  - case_bool_decide as Hin.
    + apply IH.
    + destruct (Hsend ({[msgTo msg]} ∪ noMore)) as (H1 & H2 & H3);
        [done|set_solver|].
      split; [exact H1|split; [exact H2|]]. intros to.
      destruct (H3 to) as [Hle Hz]. split; [exact Hle|].
      intros Hto. apply Hz; [set_solver|]. left. intros ->. done.
Qed.

Lemma emits_requeuePending Φ g : emits Φ (requeuePending g).
Proof. apply emits_forM. intros [k prop]. apply emits_modify. Qed.

Lemma emits_processCommittedEntry groupID gptr entry :
  emits notSend (processCommittedEntry groupID gptr entry).
Proof.
  unfold processCommittedEntry.
  destruct (entData entry) as [[data|]|[cc|]].
  - destruct (decodeCommand data). apply emits_bind; [by apply emits_emit|].
    intros _. apply emits_ret.
  - apply emits_ret.
  - destruct (if bool_decide _ then _ else _).
    apply emits_bind; [by apply emits_emit|]. intros _. apply emits_ret.
  - apply emits_panic.
Qed.

Lemma emits_finishCommitted groupID gptr entry :
  emits notSend (finishCommitted groupID gptr entry).
Proof.
  unfold finishCommitted.
  apply emits_bind; [apply emits_processCommittedEntry|]. intros commandID.
  apply emits_bind; [apply emits_derefGroup|]. intros g.
  destruct (pending g !! commandID); [|apply emits_ret].
  apply emits_bind; [apply emits_derefProposal|]. intros pr.
  apply emits_bind; [|intros _; apply emits_modify].
  destruct (p_ch pr); [|apply emits_ret].
  apply emits_bind; [by apply emits_emit|]. intros _. apply emits_modify.
Qed.

Lemma emits_maybeSendLeaderEvent groupID gptr ready :
  emits notSend (maybeSendLeaderEvent groupID gptr ready).
Proof.
  unfold maybeSendLeaderEvent.
  apply emits_bind; [apply emits_derefGroup|]. intros g.
  apply emits_bind; [apply emits_modify|]. intros _.
  destruct (_ && _); [|apply emits_ret].
  apply emits_bind; [apply emits_modify|]. intros _.
  apply emits_bind; [by apply emits_emit|]. intros _.
  apply emits_requeuePending.
Qed.

Lemma handleGroupReady_sends E groupID ready s :
  let o := (handleGroupReady E groupID ready s).1 in
  count isHeartbeatSend o = 0%nat /\
  (forall g' to, g' ≠ groupID -> count (isRespSend g' to) o = 0%nat) /\
  (forall to, (count (isRespSend groupID to) o <= 1)%nat).
Proof.
  cbn zeta. unfold handleGroupReady. rewrite bind_effects. cbn [gets fst snd app].
  destruct (groups s !! groupID) as [gptr|].
  2:{ cbn. unfold count. cbn. repeat split; intros; lia. }
  rewrite bind_effects.
  match goal with |- context [(?m s).1 ++ _] =>
    assert (Forall notSend (m s).1) as H1 end.
  { apply emits_forM. intros entry. apply emits_finishCommitted. }
  destruct (forM_ _ _ s) as [o1 [[] s1|]]; cbn [fst snd] in *.
  2:{ rewrite app_nil_r.
      repeat split; intros; rewrite count_notSend;
        auto using onlySends_heartbeat, onlySends_resp. }
  rewrite bind_effects.
  pose proof (emits_maybeSendLeaderEvent groupID gptr ready s1) as H2.
  destruct (maybeSendLeaderEvent groupID gptr ready s1) as [o2 [[] s2|]];
    cbn [fst snd] in *.
  2:{ rewrite app_nil_r.
      repeat split; intros; rewrite count_app, !count_notSend;
        auto using onlySends_heartbeat, onlySends_resp. }
  destruct (sendMessages_sends E groupID (rdMessages ready) ∅ s2) as (S1 & S2 & S3).
  split; [|split].
  - rewrite !count_app, (count_notSend _ o1), (count_notSend _ o2), S1;
      auto using onlySends_heartbeat.
  - intros g' to Hne.
    rewrite !count_app, (count_notSend _ o1), (count_notSend _ o2), S2;
      auto using onlySends_resp.
  - intros to. rewrite !count_app, (count_notSend _ o1), (count_notSend _ o2);
      auto using onlySends_resp.
    cbn. apply S3.
Qed.

Lemma handleWriteResponse_sends E batch : forall s,
  NoDup batch.*1 ->
  let o := (handleWriteResponse E batch s).1 in
  count isHeartbeatSend o = 0%nat /\
  (forall groupID to,
     (count (isRespSend groupID to) o <= 1)%nat /\
     (groupID ∉ batch.*1 -> count (isRespSend groupID to) o = 0%nat)).
Proof.
  unfold handleWriteResponse.
  induction batch as [|[g ready] batch IH]; intros s Hnd; cbn zeta.
  { cbn. unfold count. cbn. repeat split; intros; lia. }
  cbn [forM_]. rewrite bind_effects.
  apply NoDup_cons in Hnd as [Hg Hnd].
  destruct (handleGroupReady_sends E g ready s) as (G1 & G2 & G3).
  destruct (handleGroupReady E g ready s) as [o1 [[] s1|]]; cbn [fst snd] in *.
  - destruct (IH s1 Hnd) as [I1 I2]. split.
    + by rewrite count_app, G1, I1.
    + intros groupID to. rewrite count_app.
      destruct (I2 groupID to) as [Ile Iz].
      destruct (decide (groupID = g)) as [->|Hne].
      * rewrite Iz by done. split; [pose proof (G3 to); lia|].
        intros Hnot. exfalso. apply Hnot. cbn. left.
      * rewrite G2 by done. split; [lia|]. intros Hnot. apply Iz.
        intros Hin. apply Hnot. cbn. by right.
  - rewrite app_nil_r. split; [done|]. intros groupID to.
    destruct (decide (groupID = g)) as [->|Hne].
    + split; [apply G3|]. intros Hnot. exfalso. apply Hnot. cbn. left.
    + rewrite G2 by done. split; [lia|done].
Qed.

(** C3, as the code has it. While one ready batch is processed (one call of
    [handleWriteResponse], the batch having one binding per group id), no
    message of type [MsgHeartbeat] is handed to the transport, and for every
    group of the batch and every destination at most one message of type
    [MsgHeartbeatResp] of that group is sent to that destination: the set
    [noMoreHeartbeats] is created anew for each group of the batch. *)
Theorem handleWriteResponse_heartbeats E batch s :
  NoDup batch.*1 ->
  count isHeartbeatSend (handleWriteResponse E batch s).1 = 0%nat /\
  forall groupID to,
    (count (isRespSend groupID to) (handleWriteResponse E batch s).1 <= 1)%nat.
Proof.
  intros Hnd. destruct (handleWriteResponse_sends E batch s Hnd) as [H1 H2].
  split; [exact H1|]. intros groupID to. apply H2.
Qed.

Lemma handleWriteResponse_heartbeats_witness :
  NoDup Ex.twoResponses.*1 /\
  count isHeartbeatSend (handleWriteResponse Ex.quiet Ex.twoResponses Ex.with78).1 = 0%nat /\
  forall groupID to,
    (count (isRespSend groupID to)
       (handleWriteResponse Ex.quiet Ex.twoResponses Ex.with78).1 <= 1)%nat.
Proof.
  assert (NoDup Ex.twoResponses.*1) as Hnd
    by (apply (bool_decide_unpack _); vm_compute; exact I).
  split; [exact Hnd|].
  exact (handleWriteResponse_heartbeats Ex.quiet Ex.twoResponses Ex.with78 Hnd).
Defined.

(** What the code does on that batch: both responses go out to node 2. *)
Example twoResponses_effects :
  (handleWriteResponse Ex.quiet Ex.twoResponses Ex.with78).1 =
    [TransportSend 2 {| reqGroupID := 7; reqMessage := Ex.msg MsgHeartbeatResp 1 2 |};
     TransportSend 2 {| reqGroupID := 8; reqMessage := Ex.msg MsgHeartbeatResp 1 2 |}].
Proof. vm_compute. reflexivity. Qed.

(** C3 as stated fails: a batch in which two groups each hold a heartbeat
    response for the same node makes one call of [handleWriteResponse] send
    two messages of type [MsgHeartbeatResp] to that node. *)
Lemma handleWriteResponse_one_response_per_peer_fails :
  ~ (forall E batch s to,
       NoDup batch.*1 ->
       (count (isRespSendTo to) (handleWriteResponse E batch s).1 <= 1)%nat).
Proof.
  intros H.
  assert (NoDup Ex.twoResponses.*1) as Hnd
    by (apply (bool_decide_unpack _); vm_compute; exact I).
  specialize (H Ex.quiet Ex.twoResponses Ex.with78 2 Hnd).
  vm_compute in H. lia.
Qed.

(** ** The pipeline state machine (C1) *)

Ltac emits_auto :=
  repeat first
    [ apply emits_ret | apply emits_gets | apply emits_modify | apply emits_panic
    | apply emits_derefGroup | apply emits_derefProposal
    | apply emits_emit; reflexivity
    | apply emits_forM; intros
    | apply emits_bind; [|intros]
    | match goal with
      | |- emits _ (match ?x with _ => _ end) => destruct x
      | |- emits _ (let '(_, _) := ?x in _) => destruct x
      end ].

Lemma notApply_addNode nid gids : emits notApply (addNode nid gids).
Proof. unfold addNode. emits_auto. Qed.

Lemma notApply_addNodes cs groupID : emits notApply (addNodes cs groupID).
Proof.
  induction cs as [|nid cs IH]; cbn [addNodes]; [apply emits_ret|].
  apply emits_bind; [apply notApply_addNode|]. intros [e|]; [apply emits_ret|apply IH].
Qed.

Lemma notApply_createGroup E groupID : emits notApply (createGroup E groupID).
Proof.
  unfold createGroup, allocGroup.
  apply emits_bind; [apply emits_gets|]. intros [gp|]; [apply emits_ret|].
  destruct (InitialState E groupID) as [cs [e|]]; [apply emits_ret|].
  apply emits_bind; [apply emits_gets|]. intros sm.
  destruct (if sm : bool then _ else _) as [appliedIndex [e|]]; [apply emits_ret|].
  apply emits_bind; [by apply emits_emit|]. intros _.
  destruct (CreateGroupErr E groupID); [apply emits_ret|].
  apply emits_bind; [apply emits_modify|]. intros _.
  apply emits_bind; [apply notApply_addNodes|]. intros [e|]; [apply emits_ret|].
  emits_auto.
Qed.

Lemma notApply_removeGroup E op : emits notApply (removeGroup E op).
Proof. unfold removeGroup. emits_auto. Qed.

Lemma notApply_fanoutHeartbeat req : emits notApply (fanoutHeartbeat req).
Proof.
  unfold fanoutHeartbeat. 
  apply emits_bind; [apply emits_gets|]. intros self.
  apply emits_bind; [apply emits_gets|]. intros [n|].
  - emits_auto.
  - apply emits_emit. reflexivity.
Qed.

Lemma notApply_fanoutHeartbeatResponse req : emits notApply (fanoutHeartbeatResponse req).
Proof. unfold fanoutHeartbeatResponse. emits_auto. Qed.

Lemma notApply_coalescedHeartbeat : emits notApply coalescedHeartbeat.
Proof. unfold coalescedHeartbeat. emits_auto. Qed.

Lemma notApply_handleRequest E req : emits notApply (handleRequest E req).
Proof.
  unfold handleRequest.
  destruct (msgType (reqMessage req));
    try apply notApply_fanoutHeartbeat; try apply notApply_fanoutHeartbeatResponse;
    (apply emits_bind; [apply emits_gets|]; intros gp;
     apply emits_bind; [destruct gp; [apply emits_ret|apply notApply_createGroup]|];
     intros [e|]; [apply emits_ret|by apply emits_emit]).
Qed.

Lemma notApply_propose p : emits notApply (propose p).
Proof. unfold propose, callFn. emits_auto. Qed.

Lemma notApply_dequeueProposal : emits notApply dequeueProposal.
Proof.
  unfold dequeueProposal. apply emits_bind; [apply emits_gets|].
  intros [|prop rest]; [apply emits_ret|].
  apply emits_bind; [apply emits_modify|]. intros _. apply notApply_propose.
Qed.

Lemma notApply_runCallback cb err : emits notApply (runCallback cb err).
Proof.
  unfold runCallback, requeuePending.
  apply emits_bind.
  - destruct err; [by apply emits_emit|].
    apply emits_bind; [|intros _; by apply emits_emit].
    destruct (ccType (cb_cc cb)); try apply emits_ret.
    apply emits_bind; [apply notApply_addNode|]. intros _. apply emits_ret.
  - intros _. emits_auto.
Qed.

Lemma notApply_stop ops : emits notApply (stop ops).
Proof. unfold stop. emits_auto. Qed.

Lemma notApply_enqueueNew groupID commandID fn : emits notApply (enqueueNew groupID commandID fn).
Proof. apply emits_modify. Qed.

Lemma inLoop_effects l m k : (inLoop l m k).1 = (m (st l)).1.
Proof. unfold inLoop. by destruct (m (st l)) as [o [[] s|]]. Qed.

Lemma inLoop_next l m k o l' :
  inLoop l m k = (o, Some l') -> exists s, l' = k s.
Proof.
  unfold inLoop. destruct (m (st l)) as [o1 [[] s|]]; [|done].
  intros [= <- <-]. by exists s.
Qed.

(** Effects of the apply/send stage occur in the write-done case only. *)
Lemma apply_effects_only_on_write_done E ev l :
  ev ≠ WriteTaskOut -> Forall notApply (step E ev l).1.
Proof.
  intros Hev. destruct ev; cbn [step]; try done; rewrite ?inLoop_effects.
  - apply notApply_stop.
  - apply notApply_handleRequest.
  - apply emits_bind; [apply notApply_createGroup|]. intros err. by apply emits_emit.
  - apply notApply_removeGroup.
  - apply notApply_dequeueProposal.
  - unfold handleWriteReady. by apply emits_emit.
  - apply emits_bind; [by apply emits_emit|]. intros _.
    destruct (bool_decide _); [apply notApply_coalescedHeartbeat|apply emits_ret].
  - apply notApply_runCallback.
Qed.

Lemma pipelineInv_start s : pipelineInv (start s).
Proof. split; [done|]. by intros [b Hb]. Qed.

Lemma pipelineInv_step E ev l o l' :
  pipelineInv l -> enabled l ev = true -> step E ev l = (o, Some l') ->
  pipelineInv l'.
Proof.
  intros [Hw Hr] Hen Hstep. unfold pipelineInv.
  destruct ev; cbn [step] in Hstep;
    try (apply inLoop_next in Hstep as [s ->]; cbn; by split).
  - injection Hstep as <- <-. cbn in *.
    apply andb_true_iff in Hen as [_ Harm]. unfold raftReadyArmed in Harm.
    destruct (readyGroups l); [done|]. destruct (writingGroups l) eqn:Hwg; [done|].
    split; [exact Hw|done].
  - apply inLoop_next in Hstep as [s ->]. cbn in *.
    apply andb_true_iff in Hen as [Hen Hidle].
    apply andb_true_iff in Hen as [_ Harm]. unfold writeReadyArmed in Harm.
    destruct (readyGroups l) as [b|]; [|done]. cbn. split; [by exists b|].
    by intros [? ?].
Qed.

Lemma pipelineInv_reachable s0 l : reachable (start s0) l -> pipelineInv l.
Proof.
  induction 1 as [|E ev l o l' _ IH Hen Hstep]; [apply pipelineInv_start|].
  by eapply pipelineInv_step.
Qed.

Lemma run_reachable l0 evs : forall l o l',
  reachable l0 l -> run evs l = (o, Running l') -> reachable l0 l'.
Proof.
  induction evs as [|[E ev] evs IH]; intros l o l' Hl Hrun; cbn in Hrun.
  { by injection Hrun as _ <-. }
  destruct (enabled l ev) eqn:Hen; [|done].
  destruct (step E ev l) as [o1 [l1|]] eqn:Hstep; [|done].
  destruct (run evs l1) as [o2 r] eqn:Hrest. injection Hrun as _ ->.
  eapply IH; [|exact Hrest]. by eapply reachable_step.
Qed.

(** C1. In every loop state reached from [start]: the raft-ready case is
    armed exactly when no batch is stashed and none is being written, the
    write-ready case exactly when a batch is stashed, so never both; a ready
    batch can be taken from Raft only when no batch is stashed, none is being
    written and the write task holds no request; and an iteration performs an
    effect of the apply/send stage ([Advance], an event, a completion, an
    outbound non-heartbeat message) only in the write-done case, which needs
    the write task to hold the request that was built from the very batch in
    [writingGroups], that is, to acknowledge that batch. *)
Theorem pipeline_state_machine s0 l :
  reachable (start s0) l ->
  (raftReadyArmed l = true <-> readyGroups l = None /\ writingGroups l = None) /\
  (writeReadyArmed l = true <-> is_Some (readyGroups l)) /\
  ~ (raftReadyArmed l = true /\ writeReadyArmed l = true) /\
  (forall ready, enabled l (RaftReady ready) = true ->
     readyGroups l = None /\ writingGroups l = None /\ writer l = WriterIdle) /\
  (forall E ev, enabled l ev = true ->
     Exists (fun e => isApplyEffect e = true) (step E ev l).1 ->
     ev = WriteTaskOut /\
     exists batch, writingGroups l = Some batch /\
                   writer l = WriterBusy (writeRequestOf batch) /\
                   readyGroups l = None).
Proof.
  intros Hreach. pose proof (pipelineInv_reachable s0 l Hreach) as [Hw Hr].
  assert (raftReadyArmed l = true <-> readyGroups l = None /\ writingGroups l = None) as Hraft.
  { unfold raftReadyArmed. destruct (readyGroups l), (writingGroups l); naive_solver. }
  assert (writeReadyArmed l = true <-> is_Some (readyGroups l)) as Hwrite.
  { unfold writeReadyArmed. destruct (readyGroups l); split; try done; by intros [? ?]. }
  split; [exact Hraft|]. split; [exact Hwrite|]. split; [|split].
  - intros [H1 H2]. apply Hraft in H1 as [H1 _]. apply Hwrite in H2 as [b H2]. congruence.
  - intros ready Hen. cbn in Hen. apply andb_true_iff in Hen as [_ Harm].
    apply Hraft in Harm as [H1 H2]. split; [done|]. split; [done|].
    destruct (writer l) as [|req]; [done|]. destruct Hw as (b & Hb & _). congruence.
  - intros E ev Hen Hex.
    assert (ev = WriteTaskOut \/ ev ≠ WriteTaskOut) as [->|Hne]
      by (destruct ev; (by left) || by right).
    + split; [done|]. cbn in Hen. apply andb_true_iff in Hen as [_ Hbusy].
      destruct (writer l) as [|req]; [done|]. destruct Hw as (b & Hb & ->).
      exists b. split; [done|]. split; [done|].
      destruct (readyGroups l) eqn:Hrg; [|done].
      rewrite Hr in Hb by done. done.
    + exfalso. pose proof (apply_effects_only_on_write_done E ev l Hne) as Hall.
      apply Exists_exists in Hex as (e & Hin & He).
      rewrite Forall_forall in Hall. specialize (Hall e Hin). unfold notApply in Hall.
      congruence.
Qed.

Lemma pipeline_state_machine_witness :
  reachable (start Ex.fresh1) Ex.inFlight /\
  writingGroups Ex.inFlight =
    Some [(7, Ex.ready (Some {| ssLead := 1 |}) [Ex.emptyEntry 1 1] [])] /\
  enabled Ex.inFlight WriteTaskOut = true /\
  enabled Ex.inFlight (RaftReady None) = false /\
  (forall ready, enabled Ex.inFlight (RaftReady ready) = true ->
     readyGroups Ex.inFlight = None /\ writingGroups Ex.inFlight = None /\
     writer Ex.inFlight = WriterIdle) /\
  (forall E ev, enabled Ex.inFlight ev = true ->
     Exists (fun e => isApplyEffect e = true) (step E ev Ex.inFlight).1 ->
     ev = WriteTaskOut /\
     exists batch, writingGroups Ex.inFlight = Some batch /\
                   writer Ex.inFlight = WriterBusy (writeRequestOf batch) /\
                   readyGroups Ex.inFlight = None).
Proof.
  assert (reachable (start Ex.fresh1) Ex.inFlight) as H.
  { apply (run_reachable _ Ex.inFlightRun (start Ex.fresh1)
             (run Ex.inFlightRun (start Ex.fresh1)).1); [constructor|].
    vm_compute. reflexivity. }
  split; [exact H|]. split; [vm_compute; reflexivity|].
  split; [vm_compute; reflexivity|]. split; [vm_compute; reflexivity|].
  exact (proj2 (proj2 (proj2 (pipeline_state_machine Ex.fresh1 Ex.inFlight H)))).
Defined.

(** ** The committed term of a group (C6) *)

Lemma keeps_ret {A} I (a : A) : keeps I (ret a).
Proof. by apply hoare_ret. Qed.

Lemma keeps_bind {A B} I (m : M A) (f : A -> M B) :
  keeps I m -> (forall a, keeps I (f a)) -> keeps I (m ≫= f).
Proof. intros Hm Hf. by apply hoare_bind with (R := fun _ => I). Qed.

Lemma keeps_gets {A} I (f : state -> A) : keeps I (gets f).
Proof. by apply hoare_gets. Qed.

Lemma keeps_emit I e : keeps I (emit e).
Proof. by apply hoare_emit. Qed.

Lemma keeps_panic {A} I : keeps I (@panic A).
Proof. apply hoare_panic. Qed.

Lemma keeps_modify I f : (forall s, I s -> I (f s)) -> keeps I (modify f).
Proof. intros H. by apply hoare_modify. Qed.

Lemma keeps_forM {A} I (l : list A) (body : A -> M unit) :
  (forall x, keeps I (body x)) -> keeps I (forM_ l body).
Proof. intros H. apply hoare_forM. intros x _. apply H. Qed.

Lemma keeps_derefGroup I gp : keeps I (derefGroup gp).
Proof. by apply hoare_derefGroup. Qed.

Lemma keeps_derefProposal I p : keeps I (derefProposal p).
Proof. by apply hoare_derefProposal. Qed.

(** Decomposes a goal [keeps I m] along the structure of [m]; what is left
    are the state updates. *)
Ltac keeps_step :=
  lazymatch goal with
  | |- keeps _ (mbind _ _) => apply keeps_bind; [|intros]
  | |- keeps _ (ret _) => apply keeps_ret
  | |- keeps _ (gets _) => apply keeps_gets
  | |- keeps _ (emit _) => apply keeps_emit
  | |- keeps _ (sendEvent _) => apply keeps_emit
  | |- keeps _ panic => apply keeps_panic
  | |- keeps _ (derefGroup _) => apply keeps_derefGroup
  | |- keeps _ (derefProposal _) => apply keeps_derefProposal
  | |- keeps _ (forM_ _ _) => apply keeps_forM; intros; cbv beta
  | |- keeps _ (match ?x with _ => _ end) => destruct x
  end.

Ltac keeps_auto := repeat keeps_step.

Section TermAt.
Variables (gptr : nat) (c : N).

Lemma termAt_set_nodes f s : termAt gptr c s -> termAt gptr c (set_nodes f s).
Proof. done. Qed.
Lemma termAt_set_groups f s : termAt gptr c s -> termAt gptr c (set_groups f s).
Proof. done. Qed.
Lemma termAt_set_proposalHeap f s : termAt gptr c s -> termAt gptr c (set_proposalHeap f s).
Proof. done. Qed.
Lemma termAt_set_proposalChan f s : termAt gptr c s -> termAt gptr c (set_proposalChan f s).
Proof. done. Qed.
Lemma termAt_set_pending f p s :
  termAt gptr c s -> termAt gptr c (set_groupHeap (alter (set_pending f) p) s).
Proof.
  intros (g & Hg & Hc). unfold termAt. cbn. rewrite lookup_alter.
  case_decide; subst; rewrite Hg; cbn; eauto.
Qed.
Lemma termAt_alloc groupID s :
  termAt gptr c s ->
  termAt gptr c (let p := fresh (dom (groupHeap s)) in
                 set_groups (insert groupID p) (set_groupHeap (insert p newGroup) s)).
Proof.
  intros (g & Hg & Hc). unfold termAt. cbn. exists g. split; [|done].
  rewrite lookup_insert_ne; [done|]. intros Heq.
  apply (is_fresh (dom (groupHeap s))). rewrite Heq. apply elem_of_dom. eauto.
Qed.

Create HintDb termAt.

Hint Resolve termAt_set_nodes termAt_set_groups termAt_set_proposalHeap
  termAt_set_proposalChan termAt_set_pending termAt_alloc : termAt.

Ltac termAt_auto :=
  keeps_auto; try (apply keeps_modify; intros; eauto with termAt).

Lemma termAt_addNode nid gids : keeps (termAt gptr c) (addNode nid gids).
Proof. unfold addNode. termAt_auto. Qed.

Lemma termAt_addNodes cs groupID : keeps (termAt gptr c) (addNodes cs groupID).
Proof.
  induction cs as [|nid cs IH]; cbn [addNodes]; [apply keeps_ret|].
  apply keeps_bind; [apply termAt_addNode|]. intros [e|]; [apply keeps_ret|apply IH].
Qed.

Lemma termAt_createGroup E groupID : keeps (termAt gptr c) (createGroup E groupID).
Proof.
  unfold createGroup, allocGroup.
  apply keeps_bind; [apply keeps_gets|]. intros [gp|]; [apply keeps_ret|].
  destruct (InitialState E groupID) as [cs [e|]]; [apply keeps_ret|].
  apply keeps_bind; [apply keeps_gets|]. intros sm.
  destruct (if sm : bool then _ else _) as [appliedIndex [e|]]; [apply keeps_ret|].
  apply keeps_bind; [apply keeps_emit|]. intros _.
  destruct (CreateGroupErr E groupID); [apply keeps_ret|].
  apply keeps_bind; [apply keeps_modify; intros; by apply termAt_alloc|]. intros _.
  apply keeps_bind; [apply termAt_addNodes|]. intros [e|]; [apply keeps_ret|].
  termAt_auto.
Qed.

Lemma termAt_removeGroup E op : keeps (termAt gptr c) (removeGroup E op).
Proof. unfold removeGroup. termAt_auto. Qed.

Lemma termAt_fanoutHeartbeat req : keeps (termAt gptr c) (fanoutHeartbeat req).
Proof. unfold fanoutHeartbeat. termAt_auto. Qed.

Lemma termAt_fanoutHeartbeatResponse req : keeps (termAt gptr c) (fanoutHeartbeatResponse req).
Proof. unfold fanoutHeartbeatResponse. termAt_auto. Qed.

Lemma termAt_coalescedHeartbeat : keeps (termAt gptr c) coalescedHeartbeat.
Proof. unfold coalescedHeartbeat. termAt_auto. Qed.

Lemma termAt_handleRequest E req : keeps (termAt gptr c) (handleRequest E req).
Proof.
  unfold handleRequest.
  destruct (msgType (reqMessage req));
    try apply termAt_fanoutHeartbeat; try apply termAt_fanoutHeartbeatResponse;
    (apply keeps_bind; [apply keeps_gets|]; intros gp;
     apply keeps_bind; [destruct gp; [apply keeps_ret|apply termAt_createGroup]|];
     intros [e|]; [apply keeps_ret|apply keeps_emit]).
Qed.

Lemma termAt_propose p : keeps (termAt gptr c) (propose p).
Proof. unfold propose, callFn. termAt_auto. Qed.

Lemma termAt_dequeueProposal : keeps (termAt gptr c) dequeueProposal.
Proof.
  unfold dequeueProposal. apply keeps_bind; [apply keeps_gets|].
  intros [|prop rest]; [apply keeps_ret|].
  apply keeps_bind; [by apply keeps_modify|]. intros _. apply termAt_propose.
Qed.

Lemma termAt_requeuePending g : keeps (termAt gptr c) (requeuePending g).
Proof. unfold requeuePending. termAt_auto. Qed.

Lemma termAt_runCallback cb err : keeps (termAt gptr c) (runCallback cb err).
Proof.
  unfold runCallback.
  apply keeps_bind.
  - destruct err; [apply keeps_emit|].
    apply keeps_bind; [|intros _; apply keeps_emit].
    destruct (ccType (cb_cc cb)); try apply keeps_ret.
    apply keeps_bind; [apply termAt_addNode|]. intros _. apply keeps_ret.
  - intros _. apply keeps_bind; [apply keeps_derefGroup|]. intros g.
    apply termAt_requeuePending.
Qed.

Lemma termAt_stop ops : keeps (termAt gptr c) (stop ops).
Proof. unfold stop. termAt_auto. Qed.

Lemma termAt_enqueueNew groupID commandID fn :
  keeps (termAt gptr c) (enqueueNew groupID commandID fn).
Proof. unfold enqueueNew. by apply keeps_modify. Qed.

End TermAt.

Section Frame.
Variables (gs : gmap N nat) (gptr : nat) (c : N).

Lemma frame_set_nodes f s : frame gs gptr c s -> frame gs gptr c (set_nodes f s).
Proof. done. Qed.
Lemma frame_set_proposalHeap f s : frame gs gptr c s -> frame gs gptr c (set_proposalHeap f s).
Proof. done. Qed.
Lemma frame_set_proposalChan f s : frame gs gptr c s -> frame gs gptr c (set_proposalChan f s).
Proof. done. Qed.
Lemma frame_set_pending f p s :
  frame gs gptr c s -> frame gs gptr c (set_groupHeap (alter (set_pending f) p) s).
Proof. intros [Hg Ht]. split; [done|]. by apply termAt_set_pending. Qed.

Create HintDb frame.
Hint Resolve frame_set_nodes frame_set_proposalHeap frame_set_proposalChan
  frame_set_pending : frame.

Ltac frame_auto :=
  keeps_auto; try (apply keeps_modify; intros; eauto with frame).

Lemma frame_addNode nid gids : keeps (frame gs gptr c) (addNode nid gids).
Proof. unfold addNode. frame_auto. Qed.

Lemma frame_requeuePending g : keeps (frame gs gptr c) (requeuePending g).
Proof. unfold requeuePending. frame_auto. Qed.

Lemma frame_processCommittedEntry groupID g entry :
  keeps (frame gs gptr c) (processCommittedEntry groupID g entry).
Proof. unfold processCommittedEntry. frame_auto. Qed.

Lemma frame_finishCommitted groupID g entry :
  keeps (frame gs gptr c) (finishCommitted groupID g entry).
Proof.
  unfold finishCommitted.
  apply keeps_bind; [apply frame_processCommittedEntry|]. intros commandID.
  frame_auto.
Qed.

Lemma frame_sendMessage E groupID msg : keeps (frame gs gptr c) (sendMessage E groupID msg).
Proof.
  unfold sendMessage.
  apply keeps_bind; [apply keeps_gets|]. intros n.
  apply keeps_bind.
  { destruct n; [apply keeps_ret|].
    apply keeps_bind; [apply frame_addNode|]. intros _. apply keeps_ret. }
  intros _. frame_auto.
Qed.

Lemma frame_sendMessages E groupID msgs : forall noMore,
  keeps (frame gs gptr c) (sendMessages E groupID msgs noMore).
Proof.
  induction msgs as [|msg rest IH]; intros noMore; cbn [sendMessages].
  { apply keeps_ret. }
  destruct (msgType msg); try apply IH;
    try (apply keeps_bind; [apply frame_sendMessage|]; intros _; apply IH).
  destruct (bool_decide _); [apply IH|].
  apply keeps_bind; [apply frame_sendMessage|]. intros _. apply IH.
Qed.

End Frame.

Lemma requeuePending_run g s :
  requeuePending g s =
    ([], Ret tt (set_proposalChan (fun q => q ++ (map_to_list (pending g)).*2) s)).
Proof.
  unfold requeuePending.
  assert (forall (l : list (string * nat)) s,
    forM_ l (fun '(_, prop) => modify (set_proposalChan (fun q => q ++ [prop]))) s =
    ([], Ret tt (set_proposalChan (fun q => q ++ l.*2) s))) as H.
  { induction l as [|[k prop] l IH]; intros s0.
    - cbn. unfold set_proposalChan. rewrite app_nil_r. by destruct s0.
    - cbn [forM_]. rewrite bind_unfold. cbn. rewrite IH. cbn.
      unfold set_proposalChan. cbn. by rewrite <- app_assoc. }
  apply H.
Qed.

(** What [maybeSendLeaderEvent] does to a group object, exactly. *)
Lemma maybeSendLeaderEvent_run groupID gptr ready s g :
  groupHeap s !! gptr = Some g ->
  let lead := match rdSoftState ready with
              | Some ss => ssLead ss
              | None => leader g
              end in
  let term := default (committedTerm g) (lastCommittedTerm ready) in
  let changed := bool_decide (term ≠ committedTerm g) && bool_decide (lead ≠ 0) in
  maybeSendLeaderEvent groupID gptr ready s =
    (if changed then [SendEvent (EventLeaderElection groupID lead term)] else [],
     Ret tt
       (let s1 := set_groupHeap (insert gptr
                    {| committedTerm := if changed then term else committedTerm g;
                       leader := lead; pending := pending g |}) s in
        if changed
        then set_proposalChan (fun q => q ++ (map_to_list (pending g)).*2) s1
        else s1)).
Proof.
  intros Hg lead term changed. unfold maybeSendLeaderEvent.
  rewrite bind_unfold. unfold derefGroup at 1. cbn [mbind option_bind]. rewrite Hg.
  rewrite bind_unfold. unfold modify at 1. fold lead term. fold changed.
  assert (forall f, (forall x, f x = {| committedTerm := committedTerm x; leader := lead; pending := pending x |}) ->
     alter f gptr (groupHeap s) =
     <[gptr := {| committedTerm := committedTerm g; leader := lead; pending := pending g |}]> (groupHeap s)) as Ha.
  { intros f Hf. apply map_eq. intros i. rewrite lookup_alter, lookup_insert.
    case_decide; subst; [|done]. rewrite Hg. cbn. by rewrite Hf. }
  destruct changed.
  - rewrite bind_unfold. unfold modify at 1. cbv iota beta.
    rewrite bind_unfold. unfold sendEvent, emit at 1. cbv iota beta.
    rewrite requeuePending_run. cbn [app].
    f_equal. f_equal. unfold set_proposalChan, set_groupHeap. cbn. f_equal.
    rewrite (Ha _ (fun _ => eq_refl)).
    apply map_eq. intros i. rewrite lookup_alter, !lookup_insert.
    destruct (decide (gptr = i)); subst; [|done]. rewrite decide_True by done. done.
  - cbn. f_equal. f_equal. unfold set_groupHeap. f_equal. 
    by rewrite (Ha _ (fun _ => eq_refl)).
Qed.

Lemma post_bind {A B} (m : M A) (f : A -> M B) s Q :
  post m s (fun o1 a s1 => post (f a) s1 (fun o2 b s2 => Q (o1 ++ o2) b s2)) ->
  post (m ≫= f) s Q.
Proof.
  unfold post. rewrite bind_unfold. destruct (m s) as [o1 [a s1|]]; [|done].
  intros H. by destruct (f a s1) as [o2 [b s2|]].
Qed.

Lemma post_keeps {A} I (m : M A) s (Q : list effect -> A -> state -> Prop) :
  keeps I m -> I s -> (forall o a s', I s' -> Q o a s') -> post m s Q.
Proof.
  intros Hk Hs HQ. unfold post. specialize (Hk s Hs).
  destruct (m s) as [o [a s'|]]; [|done]. by apply HQ.
Qed.

Lemma post_forM {A} (l : list A) (body : A -> M unit)
    (J : list effect -> state -> Prop) : forall o0 s,
  J o0 s ->
  (forall x o1 s1, x ∈ l -> J o1 s1 ->
     post (body x) s1 (fun o _ s' => J (o1 ++ o) s')) ->
  post (forM_ l body) s (fun o _ s' => J (o0 ++ o) s').
Proof.
  induction l as [|x l IH]; intros o0 s HJ Hb.
  { unfold post. cbn. by rewrite app_nil_r. }
  cbn [forM_]. apply post_bind.
  specialize (Hb x o0 s (list_elem_of_here _ _) HJ) as Hx. unfold post in Hx |- *.
  destruct (body x s) as [o1 [[] s1|]]; [|done].
  specialize (IH (o0 ++ o1) s1 Hx).
  unfold post in IH.
  assert (forall x o2 s2, x ∈ l -> J o2 s2 ->
            post (body x) s2 (fun o _ s' => J (o2 ++ o) s')) as Hb'.
  { intros y o2 s2 Hy. apply Hb. by right. }
  specialize (IH Hb'). destruct (forM_ l body s1) as [o2 [[] s2|]]; [|done].
  by rewrite app_assoc.
Qed.

Section Track.
Variables (batch : list (N * Ready)) (gs : gmap N nat) (gptr : nat) (c0 : N).

Lemma termTrack_more o o' s :
  termTrack batch gs gptr c0 o s -> termTrack batch gs gptr c0 (o ++ o') s.
Proof.
  intros (Hgs & g' & Hg' & [Hc|(gid & rd & lead & H1 & H2 & H3 & H4 & H5)]);
    (split; [done|]); exists g'; (split; [done|]); [by left|right].
  exists gid, rd, lead. repeat split; try done. apply elem_of_app. by left.
Qed.

Lemma termTrack_keeps {A} (m : M A) o0 s :
  (forall c, keeps (frame gs gptr c) m) ->
  termTrack batch gs gptr c0 o0 s ->
  post m s (fun o _ s' => termTrack batch gs gptr c0 (o0 ++ o) s').
Proof.
  intros Hk (Hgs & g' & Hg' & Hc).
  apply (post_keeps (frame gs gptr (committedTerm g'))); [apply Hk| |].
  { split; [done|]. by exists g'. }
  intros o a s' (Hgs' & g'' & Hg'' & Hc''). split; [done|]. exists g''. split; [done|].
  rewrite Hc''. destruct Hc as [Hc|(gid & rd & lead & H1 & H2 & H3 & H4 & H5)]; [by left|right].
  exists gid, rd, lead. repeat split; try done. apply elem_of_app. by left.
Qed.

Lemma termTrack_maybeSendLeaderEvent gid gptr' rd o0 s :
  (gid, rd) ∈ batch -> gs !! gid = Some gptr' ->
  termTrack batch gs gptr c0 o0 s ->
  post (maybeSendLeaderEvent gid gptr' rd) s
    (fun o _ s' => termTrack batch gs gptr c0 (o0 ++ o) s').
Proof.
  intros Hin Hgid (Hgs & g' & Hg' & Hc). unfold post.
  destruct (groupHeap s !! gptr') as [g1|] eqn:Hg1.
  2:{ unfold maybeSendLeaderEvent. rewrite bind_unfold. unfold derefGroup.
      cbn [mbind option_bind]. by rewrite Hg1. }
  rewrite (maybeSendLeaderEvent_run gid gptr' rd s g1 Hg1). cbv zeta.
  set (lead := match rdSoftState rd with Some ss => ssLead ss | None => leader g1 end).
  set (term := default (committedTerm g1) (lastCommittedTerm rd)).
  destruct (decide (gptr' = gptr)) as [->|Hne].
  - assert (g1 = g') as -> by congruence.
    destruct (bool_decide (term ≠ committedTerm g') && bool_decide (lead ≠ 0)) eqn:Hch.
    + apply andb_true_iff in Hch as [Ht Hl].
      apply bool_decide_eq_true_1 in Ht. apply bool_decide_eq_true_1 in Hl.
      split; [done|]. eexists. split; [cbn; by rewrite lookup_insert_eq|].
      right. exists gid, rd, lead. cbn. repeat split; try done.
      * subst term. destruct (lastCommittedTerm rd); [done|]. by cbn in Ht.
      * apply elem_of_app. right. by left.
    + split; [done|]. eexists. split; [cbn; by rewrite lookup_insert_eq|]. cbn.
      destruct Hc as [Hc|(gid' & rd' & lead' & H1 & H2 & H3 & H4 & H5)]; [by left|right].
      exists gid', rd', lead'. repeat split; try done. apply elem_of_app. by left.
  - assert (forall s1 q, groupHeap s1 = <[gptr' := q]> (groupHeap s) -> groups s1 = gs ->
              forall o, termTrack batch gs gptr c0 (o0 ++ o) s1) as Hother.
    { intros s1 q Hh Hg o. split; [done|]. exists g'. split.
      - by rewrite Hh, lookup_insert_ne.
      - destruct Hc as [Hc|(gid' & rd' & lead' & H1 & H2 & H3 & H4 & H5)]; [by left|right].
        exists gid', rd', lead'. repeat split; try done. apply elem_of_app. by left. }
    destruct (_ && _); by eapply Hother.
Qed.

Lemma termTrack_handleGroupReady E gid rd o0 s :
  (gid, rd) ∈ batch ->
  termTrack batch gs gptr c0 o0 s ->
  post (handleGroupReady E gid rd) s
    (fun o _ s' => termTrack batch gs gptr c0 (o0 ++ o) s').
Proof.
  intros Hin HJ. unfold handleGroupReady. apply post_bind.
  unfold post at 1. cbn [gets].
  assert (groups s = gs) as Hgs by apply HJ.
  destruct (groups s !! gid) as [gptr'|] eqn:Hgid.
  2:{ unfold post. cbn. by rewrite app_nil_r. }
  cbn [app]. apply post_bind.
  pose proof (termTrack_keeps (forM_ (rdCommittedEntries rd) (finishCommitted gid gptr')) o0 s) as H1.
  unfold post in H1 |- *.
  destruct (forM_ _ _ s) as [o1 [[] s1|]]; [|done].
  specialize (H1 (fun c => keeps_forM _ _ _ (fun x => frame_finishCommitted gs gptr c gid gptr' x)) HJ).
  apply post_bind.
  pose proof (termTrack_maybeSendLeaderEvent gid gptr' rd (o0 ++ o1) s1 Hin) as H2.
  rewrite <- Hgs in H2. specialize (H2 Hgid). rewrite Hgs in H2. specialize (H2 H1).
  unfold post in H2 |- *.
  destruct (maybeSendLeaderEvent gid gptr' rd s1) as [o2 [[] s2|]]; [|done].
  pose proof (termTrack_keeps (sendMessages E gid (rdMessages rd) ∅) ((o0 ++ o1) ++ o2) s2
                (fun c => frame_sendMessages gs gptr c E gid (rdMessages rd) ∅) H2) as H3.
  unfold post in H3 |- *.
  destruct (sendMessages _ _ _ _ s2) as [o3 [[] s3|]]; [|done].
  by rewrite <- !app_assoc in H3.
Qed.

Lemma termTrack_handleWriteResponse E s :
  termTrack batch gs gptr c0 [] s ->
  post (handleWriteResponse E batch) s (fun o _ s' => termTrack batch gs gptr c0 o s').
Proof.
  intros HJ. unfold handleWriteResponse.
  apply (post_forM batch _ (termTrack batch gs gptr c0) [] s HJ).
  intros [gid rd] o1 s1 Hin HJ1. by apply termTrack_handleGroupReady.
Qed.

End Track.

Lemma inLoop_keeps I l m k o l' :
  keeps I m -> (forall s, st (k s) = s) -> I (st l) ->
  inLoop l m k = (o, Some l') -> I (st l').
Proof.
  intros Hk Hst HI. unfold inLoop. specialize (Hk (st l) HI).
  destruct (m (st l)) as [o1 [[] s|]]; [|done].
  intros [= <- <-]. by rewrite Hst.
Qed.

Lemma termAt_step E ev l o l' gptr c :
  ev ≠ WriteTaskOut -> step E ev l = (o, Some l') ->
  termAt gptr c (st l) -> termAt gptr c (st l').
Proof.
  intros Hev Hstep HI.
  destruct ev; cbn [step] in Hstep; try done;
    try (injection Hstep as <- <-; exact HI);
    (eapply inLoop_keeps; [| |exact HI|exact Hstep]; [|done]).
  - apply termAt_stop.
  - apply termAt_handleRequest.
  - apply keeps_bind; [apply termAt_createGroup|]. intros err. apply keeps_emit.
  - apply termAt_removeGroup.
  - apply termAt_dequeueProposal.
  - apply keeps_bind; [apply keeps_emit|]. intros _.
    destruct (bool_decide _); [apply termAt_coalescedHeartbeat|apply keeps_ret].
  - apply termAt_runCallback.
Qed.

Lemma committedTerm_step E ev l o l' gptr g :
  step E ev l = (o, Some l') ->
  groupHeap (st l) !! gptr = Some g ->
  exists g', groupHeap (st l') !! gptr = Some g' /\
    (committedTerm g' = committedTerm g \/
     (ev = WriteTaskOut /\
      exists gid rd lead,
        (gid, rd) ∈ default [] (writingGroups l) /\
        groups (st l) !! gid = Some gptr /\
        lastCommittedTerm rd = Some (committedTerm g') /\ lead ≠ 0 /\
        SendEvent (EventLeaderElection gid lead (committedTerm g')) ∈ o)).
Proof.
  intros Hstep Hg.
  assert (ev = WriteTaskOut \/ ev ≠ WriteTaskOut) as [->|Hne]
    by (destruct ev; (by left) || by right).
  - cbn [step] in Hstep. unfold inLoop in Hstep.
    pose proof (termTrack_handleWriteResponse (default [] (writingGroups l))
      (groups (st l)) gptr (committedTerm g) E (st l)) as Hp.
    rewrite bind_unfold in Hstep. unfold post in Hp.
    destruct (handleWriteResponse E _ (st l)) as [o1 [[] s1|]]; [|done].
    cbn in Hstep. injection Hstep as <- <-. cbn.
    destruct Hp as (_ & g' & Hg' & Hc).
    { split; [done|]. exists g. split; [done|]. by left. }
    exists g'. split; [done|].
    destruct Hc as [Hc|(gid & rd & lead & H1 & H2 & H3 & H4 & H5)]; [by left|right].
    split; [done|]. exists gid, rd, lead. repeat split; try done.
    apply elem_of_app. by left.
  - destruct (termAt_step E ev l o l' gptr (committedTerm g) Hne Hstep) as (g' & Hg' & Hc).
    { by exists g. }
    exists g'. split; [done|]. by left.
Qed.

Lemma noStaleTerm_le gptr l g gid rd t :
  noStaleTerm gptr l WriteTaskOut = true ->
  groupHeap (st l) !! gptr = Some g ->
  (gid, rd) ∈ default [] (writingGroups l) ->
  groups (st l) !! gid = Some gptr ->
  lastCommittedTerm rd = Some t ->
  committedTerm g <= t.
Proof.
  cbn. intros Hall Hg Hin Hgid Ht.
  rewrite forallb_forall in Hall. apply list_elem_of_In in Hin.
  specialize (Hall _ Hin). unfold termNotBehind in Hall. cbn in Hall.
  rewrite bool_decide_eq_true_2, Hg, Ht in Hall by done. by apply N.leb_le.
Qed.

Lemma committedTerm_step_le E ev l o l' gptr g :
  step E ev l = (o, Some l') ->
  groupHeap (st l) !! gptr = Some g ->
  noStaleTerm gptr l ev = true ->
  exists g', groupHeap (st l') !! gptr = Some g' /\ committedTerm g <= committedTerm g'.
Proof.
  intros Hstep Hg Hns.
  destruct (committedTerm_step E ev l o l' gptr g Hstep Hg) as (g' & Hg' & Hc).
  exists g'. split; [done|].
  destruct Hc as [->|(-> & gid & rd & lead & H1 & H2 & H3 & _)]; [lia|].
  by eapply noStaleTerm_le.
Qed.

Lemma termHistory_unfold gptr evs l :
  termHistory gptr evs l =
  match committedTerm <$> groupHeap (st l) !! gptr with
  | Some c => [c]
  | None => []
  end ++
  match evs with
  | [] => []
  | (E, ev) :: evs' =>
      if enabled l ev then
        match step E ev l with
        | (_, Some l') => termHistory gptr evs' l'
        | (_, None) => []
        end
      else []
  end.
Proof.
  unfold termHistory.
  destruct evs as [|[E ev] evs]; cbn [statesOf]; cbn [omap list_omap];
    destruct (committedTerm <$> groupHeap (st l) !! gptr); try done.
  - destruct (enabled l ev); [|done]. by destruct (step E ev l) as [o [l'|]].
  - destruct (enabled l ev); [|done]. by destruct (step E ev l) as [o [l'|]].
Qed.

Lemma nonDecreasing_nil : nonDecreasing [].
Proof. by intros [|i] [|j]. Qed.

Lemma nonDecreasing_cons c h :
  Forall (fun t => c <= t) h -> nonDecreasing h -> nonDecreasing (c :: h).
Proof.
  intros Hall Hnd [|i] [|j] ti tj Hij Hi Hj; cbn in *; simplify_eq; try lia.
  - rewrite Forall_forall in Hall. apply Hall. by eapply list_elem_of_lookup_2.
  - apply (Hnd i j); [lia|done|done].
Qed.

Lemma termHistory_from gptr evs : forall l g,
  groupHeap (st l) !! gptr = Some g ->
  termsRespected gptr evs l = true ->
  Forall (fun t => committedTerm g <= t) (termHistory gptr evs l) /\
  nonDecreasing (termHistory gptr evs l).
Proof.
  induction evs as [|[E ev] evs IH]; intros l g Hg Hres;
    rewrite termHistory_unfold, Hg; cbn [fmap option_fmap option_map app].
  - split; [by repeat constructor|]. apply nonDecreasing_cons; [constructor|].
    apply nonDecreasing_nil.
  - cbn in Hres. apply andb_true_iff in Hres as [Hns Hres].
    destruct (enabled l ev).
    2:{ split; [by repeat constructor|].
        apply nonDecreasing_cons; [constructor|apply nonDecreasing_nil]. }
    destruct (step E ev l) as [o [l'|]] eqn:Hstep.
    2:{ split; [by repeat constructor|].
        apply nonDecreasing_cons; [constructor|apply nonDecreasing_nil]. }
    destruct (committedTerm_step_le E ev l o l' gptr g Hstep Hg Hns) as (g' & Hg' & Hle).
    destruct (IH l' g' Hg' Hres) as [Hall Hnd].
    assert (Forall (fun t => committedTerm g <= t) (termHistory gptr evs l')) as Hall'.
    { eapply Forall_impl; [exact Hall|]. intros t Ht. cbn in Ht. lia. }
    split; [by constructor|]. by apply nonDecreasing_cons.
Qed.

Lemma termHistory_nonDecreasing gptr evs : forall l,
  termsRespected gptr evs l = true -> nonDecreasing (termHistory gptr evs l).
Proof.
  induction evs as [|[E ev] evs IH]; intros l Hres;
    (destruct (groupHeap (st l) !! gptr) as [g|] eqn:Hg;
     [by apply (termHistory_from gptr _ l g)|]);
    rewrite termHistory_unfold, Hg; cbn [fmap option_fmap option_map app].
  - apply nonDecreasing_nil.
  - cbn in Hres. apply andb_true_iff in Hres as [_ Hres].
    destruct (enabled l ev); [|apply nonDecreasing_nil].
    destruct (step E ev l) as [o [l'|]]; [|apply nonDecreasing_nil].
    by apply IH.
Qed.

(** C6, as the code has it. Along a run in which no write-done step applies,
    for a group, a batch whose last committed term is below the term the
    group object stores, the values of the object's [committedTerm] are
    non-decreasing. And in any step of the loop the field of an existing
    group object changes only in the write-done case, only to the term of the
    last committed entry of a ready of the batch for that group, only with a
    non-zero leader, and together with a [LeaderElection] event carrying that
    leader and term. (The code tests the observed term against the stored one
    with [!=]; it relies on the embedded Raft for their order.) *)
Theorem committedTerm_history gptr evs l :
  termsRespected gptr evs l = true ->
  nonDecreasing (termHistory gptr evs l) /\
  forall E ev l1 o l2 g,
    step E ev l1 = (o, Some l2) ->
    groupHeap (st l1) !! gptr = Some g ->
    exists g', groupHeap (st l2) !! gptr = Some g' /\
      (committedTerm g' ≠ committedTerm g ->
       ev = WriteTaskOut /\
       exists gid rd lead,
         (gid, rd) ∈ default [] (writingGroups l1) /\
         groups (st l1) !! gid = Some gptr /\
         lastCommittedTerm rd = Some (committedTerm g') /\ lead ≠ 0 /\
         SendEvent (EventLeaderElection gid lead (committedTerm g')) ∈ o).
Proof.
  intros Hres. split; [by apply termHistory_nonDecreasing|].
  intros E ev l1 o l2 g Hstep Hg.
  destruct (committedTerm_step E ev l1 o l2 gptr g Hstep Hg) as (g' & Hg' & Hc).
  exists g'. split; [done|]. intros Hne. by destruct Hc as [Hc|Hc].
Qed.

Lemma committedTerm_history_witness :
  termsRespected 0 Ex.appliedRun (start Ex.fresh1) = true /\
  termHistory 0 Ex.appliedRun (start Ex.fresh1) = [0; 0; 0; 1] /\
  nonDecreasing (termHistory 0 Ex.appliedRun (start Ex.fresh1)).
Proof.
  split; [vm_compute; reflexivity|]. split; [vm_compute; reflexivity|].
  exact (proj1 (committedTerm_history 0 Ex.appliedRun (start Ex.fresh1) eq_refl)).
Defined.

(** What the code does on a batch with a lower term: the stored term goes
    from 5 to 3. *)
Example decreasingRun_history :
  termHistory 0 Ex.decreasingRun (start Ex.fresh1) = [0; 0; 0; 5; 5; 5; 3].
Proof. vm_compute. reflexivity. Qed.

(** The same decrease with terms that never decrease within one Raft
    instance: the group object created second (at address 1) receives the
    batch that was in flight for the removed group. *)
Example recreateRun_history :
  termHistory 1 Ex.recreateRun (start Ex.fresh1) = [0; 5; 5; 5; 1].
Proof. vm_compute. reflexivity. Qed.

(** C6 as stated fails: nothing in the coordinator makes the sequence
    non-decreasing when a ready batch carries a lower term. *)
Lemma committedTerm_can_decrease :
  ~ (forall s0 gptr evs, nonDecreasing (termHistory gptr evs (start s0))).
Proof.
  intros H. specialize (H Ex.fresh1 0%nat Ex.decreasingRun 3%nat 6%nat 5 3).
  rewrite decreasingRun_history in H.
  assert (5 <= 3) as Hle by (apply H; [lia|reflexivity|reflexivity]). lia.
Qed.

(** ** Registered groups and the group table (C10, C4) *)

(** The fan-out paths rely on every group registered with a peer being in
    the group table.  The lemmas below show that every case of the loop but
    the removal of a group keeps that property. *)

Lemma live_set_proposalHeap f s :
  registeredGroupsLive s -> registeredGroupsLive (set_proposalHeap f s).
Proof. done. Qed.

Lemma live_set_proposalChan f s :
  registeredGroupsLive s -> registeredGroupsLive (set_proposalChan f s).
Proof. done. Qed.

Lemma live_set_groupHeap f s :
  registeredGroupsLive s -> registeredGroupsLive (set_groupHeap f s).
Proof. done. Qed.

Lemma live_new_group groupID p s :
  registeredGroupsLive s -> registeredGroupsLive (set_groups (insert groupID p) s).
Proof.
  intros H nid n g Hn Hg. cbn in *. destruct (H nid n g Hn Hg) as [q Hq].
  rewrite lookup_insert. case_decide; eauto.
Qed.

Lemma live_new_node nid s :
  registeredGroupsLive s ->
  registeredGroupsLive (set_nodes (fun ns =>
    match ns !! nid with Some _ => ns | None => <[nid := newNode nid]> ns end) s).
Proof.
  intros H nid' n g Hn Hg. cbn in *.
  destruct (nodes s !! nid) eqn:Hnid; [by eapply H|].
  rewrite lookup_insert in Hn. case_decide; simplify_eq; [set_solver|by eapply H].
Qed.

Lemma live_register groupID nid s :
  is_Some (groups s !! groupID) ->
  registeredGroupsLive s ->
  registeredGroupsLive (set_nodes (alter (registerGroup groupID) nid) s).
Proof.
  intros Hin H nid' n g Hn Hg. cbn in *. rewrite lookup_alter in Hn.
  case_decide; [|by eapply H]. subst.
  destruct (nodes s !! nid') as [n0|] eqn:Hn0; [|done]. cbn in Hn. simplify_eq.
  cbn in Hg. apply elem_of_union in Hg as [Hg|Hg]; [|by eapply H].
  apply elem_of_singleton in Hg. by subst.
Qed.

Create HintDb live.
Hint Resolve live_set_proposalHeap live_set_proposalChan live_set_groupHeap
  live_new_group live_new_node : live.

Ltac live_auto :=
  keeps_auto; try (apply keeps_modify; intros; eauto with live).

Lemma live_addNode nid gids : keeps registeredGroupsLive (addNode nid gids).
Proof.
  unfold addNode.
  apply hoare_bind with (R := fun gs s => registeredGroupsLive s /\ gs = groups s).
  { by apply hoare_gets. }
  intros gs. destruct (List.find _ gids) eqn:Hfind.
  { apply hoare_ret. by intros s [H _]. }
  assert (forall g, g ∈ gids -> is_Some (gs !! g)) as Hall.
  { intros g Hg. pose proof (find_none _ _ Hfind g) as Hn.
    apply list_elem_of_In in Hg. specialize (Hn Hg). cbn in Hn.
    apply bool_decide_eq_false_1 in Hn. by apply not_eq_None_Some. }
  apply hoare_bind with (R := fun _ s => registeredGroupsLive s /\ gs = groups s).
  { apply hoare_modify. intros s [H Hgs]. split; [by apply live_new_node|done]. }
  intros _.
  apply hoare_bind with (R := fun _ s => registeredGroupsLive s /\ gs = groups s).
  { apply hoare_forM. intros g Hg. apply hoare_modify. intros s [H Hgs].
    split; [|done]. apply live_register; [|done]. rewrite <- Hgs. by apply Hall. }
  intros _. apply hoare_ret. by intros s [H _].
Qed.

Lemma live_addNodes cs groupID : keeps registeredGroupsLive (addNodes cs groupID).
Proof.
  induction cs as [|nid cs IH]; cbn [addNodes]; [apply keeps_ret|].
  apply keeps_bind; [apply live_addNode|]. intros [e|]; [apply keeps_ret|apply IH].
Qed.

Lemma live_createGroup E groupID : keeps registeredGroupsLive (createGroup E groupID).
Proof.
  unfold createGroup, allocGroup.
  apply keeps_bind; [apply keeps_gets|]. intros [gp|]; [apply keeps_ret|].
  destruct (InitialState E groupID) as [cs [e|]]; [apply keeps_ret|].
  apply keeps_bind; [apply keeps_gets|]. intros sm.
  destruct (if sm : bool then _ else _) as [appliedIndex [e|]]; [apply keeps_ret|].
  apply keeps_bind; [apply keeps_emit|]. intros _.
  destruct (CreateGroupErr E groupID); [apply keeps_ret|].
  apply keeps_bind.
  { apply keeps_modify. intros s H. by apply live_new_group, live_set_groupHeap. }
  intros _.
  apply keeps_bind; [apply live_addNodes|]. intros [e|]; [apply keeps_ret|].
  live_auto.
Qed.

Lemma live_fanoutHeartbeat req : keeps registeredGroupsLive (fanoutHeartbeat req).
Proof. unfold fanoutHeartbeat. live_auto. Qed.

Lemma live_fanoutHeartbeatResponse req :
  keeps registeredGroupsLive (fanoutHeartbeatResponse req).
Proof. unfold fanoutHeartbeatResponse. live_auto. Qed.

Lemma live_coalescedHeartbeat : keeps registeredGroupsLive coalescedHeartbeat.
Proof. unfold coalescedHeartbeat. live_auto. Qed.

Lemma live_handleRequest E req : keeps registeredGroupsLive (handleRequest E req).
Proof.
  unfold handleRequest.
  destruct (msgType (reqMessage req));
    try apply live_fanoutHeartbeat; try apply live_fanoutHeartbeatResponse;
    (apply keeps_bind; [apply keeps_gets|]; intros gp;
     apply keeps_bind; [destruct gp; [apply keeps_ret|apply live_createGroup]|];
     intros [e|]; [apply keeps_ret|apply keeps_emit]).
Qed.

Lemma live_propose p : keeps registeredGroupsLive (propose p).
Proof. unfold propose, callFn. live_auto. Qed.

Lemma live_dequeueProposal : keeps registeredGroupsLive dequeueProposal.
Proof.
  unfold dequeueProposal. apply keeps_bind; [apply keeps_gets|].
  intros [|prop rest]; [apply keeps_ret|].
  apply keeps_bind; [by apply keeps_modify|]. intros _. apply live_propose.
Qed.

Lemma live_requeuePending g : keeps registeredGroupsLive (requeuePending g).
Proof. unfold requeuePending. live_auto. Qed.

Lemma live_runCallback cb err : keeps registeredGroupsLive (runCallback cb err).
Proof.
  unfold runCallback.
  apply keeps_bind.
  - destruct err; [apply keeps_emit|].
    apply keeps_bind; [|intros _; apply keeps_emit].
    destruct (ccType (cb_cc cb)); try apply keeps_ret.
    apply keeps_bind; [apply live_addNode|]. intros _. apply keeps_ret.
  - intros _. apply keeps_bind; [apply keeps_derefGroup|]. intros g.
    apply live_requeuePending.
Qed.

Lemma live_stop ops : keeps registeredGroupsLive (stop ops).
Proof. unfold stop. live_auto. Qed.

Lemma live_processCommittedEntry groupID g entry :
  keeps registeredGroupsLive (processCommittedEntry groupID g entry).
Proof. unfold processCommittedEntry. live_auto. Qed.

Lemma live_finishCommitted groupID g entry :
  keeps registeredGroupsLive (finishCommitted groupID g entry).
Proof.
  unfold finishCommitted.
  apply keeps_bind; [apply live_processCommittedEntry|]. intros commandID.
  live_auto.
Qed.

Lemma live_sendMessage E groupID msg : keeps registeredGroupsLive (sendMessage E groupID msg).
Proof.
  unfold sendMessage.
  apply keeps_bind; [apply keeps_gets|]. intros n.
  apply keeps_bind.
  { destruct n; [apply keeps_ret|].
    apply keeps_bind; [apply live_addNode|]. intros _. apply keeps_ret. }
  intros _. live_auto.
Qed.

Lemma live_sendMessages E groupID msgs : forall noMore,
  keeps registeredGroupsLive (sendMessages E groupID msgs noMore).
Proof.
  induction msgs as [|msg rest IH]; intros noMore; cbn [sendMessages].
  { apply keeps_ret. }
  destruct (msgType msg); try apply IH;
    try (apply keeps_bind; [apply live_sendMessage|]; intros _; apply IH).
  destruct (bool_decide _); [apply IH|].
  apply keeps_bind; [apply live_sendMessage|]. intros _. apply IH.
Qed.

Lemma live_maybeSendLeaderEvent groupID gptr ready :
  keeps registeredGroupsLive (maybeSendLeaderEvent groupID gptr ready).
Proof.
  unfold maybeSendLeaderEvent.
  apply keeps_bind; [apply keeps_derefGroup|]. intros g.
  apply keeps_bind; [by apply keeps_modify|]. intros _.
  destruct (_ && _); [|apply keeps_ret].
  apply keeps_bind; [by apply keeps_modify|]. intros _.
  apply keeps_bind; [apply keeps_emit|]. intros _. apply live_requeuePending.
Qed.

Lemma live_handleWriteResponse E batch :
  keeps registeredGroupsLive (handleWriteResponse E batch).
Proof.
  unfold handleWriteResponse. apply keeps_forM. intros [groupID ready].
  unfold handleGroupReady. apply keeps_bind; [apply keeps_gets|].
  intros [gptr|]; [|apply keeps_ret].
  apply keeps_bind; [apply keeps_forM; intros; apply live_finishCommitted|]. intros _.
  apply keeps_bind; [apply live_maybeSendLeaderEvent|]. intros _.
  apply live_sendMessages.
Qed.

(** Every case of the loop other than the removal of a group keeps the
    registered groups in the group table. *)
Lemma live_step E ev l o l' :
  (forall op, ev ≠ RemoveGroupChan op) ->
  step E ev l = (o, Some l') ->
  registeredGroupsLive (st l) -> registeredGroupsLive (st l').
Proof.
  intros Hev Hstep HI.
  destruct ev; cbn [step] in Hstep;
    try (injection Hstep as <- <-; exact HI);
    try (by destruct (Hev op));
    (eapply inLoop_keeps; [| |exact HI|exact Hstep]; [|done]).
  - apply live_stop.
  - apply live_handleRequest.
  - apply keeps_bind; [apply live_createGroup|]. intros err. apply keeps_emit.
  - apply live_dequeueProposal.
  - apply keeps_bind; [apply live_handleWriteResponse|]. intros _. apply keeps_emit.
  - apply keeps_bind; [apply keeps_emit|]. intros _.
    destruct (bool_decide _); [apply live_coalescedHeartbeat|apply keeps_ret].
  - apply live_runCallback.
Qed.

Lemma stale_reachable :
  (run Ex.staleRun (start Ex.fresh1)).2 = Running Ex.stale /\
  reachable (start Ex.fresh1) Ex.stale.
Proof.
  assert ((run Ex.staleRun (start Ex.fresh1)).2 = Running Ex.stale) as H
    by (vm_compute; reflexivity).
  split; [exact H|].
  apply (run_reachable _ Ex.staleRun (start Ex.fresh1)
           (run Ex.staleRun (start Ex.fresh1)).1); [constructor|].
  rewrite <- H. by destruct (run _ _).
Qed.

(** C10 fails on the code. After node 1 has created group 7 on a vote
    request of node 2, answered node 2 (which registers node 2 for the group
    at send time) and removed the group (which unregisters only the members
    that storage lists, here none), node 2 is still registered for group 7
    while the group table has no group 7; a coalesced heartbeat, or a
    coalesced heartbeat response, from node 2 then looks the group up, gets
    nil, and the loop panics. *)
Theorem registered_group_missing_from_table :
  reachable (start Ex.fresh1) Ex.stale /\
  groupIDs <$> nodes (st Ex.stale) !! 2 = Some {[7]} /\
  groups (st Ex.stale) !! 7 = None /\
  ~ registeredGroupsLive (st Ex.stale) /\
  enabled Ex.stale (ReqChan Ex.heartbeatFrom2) = true /\
  (step Ex.quiet (ReqChan Ex.heartbeatFrom2) Ex.stale).2 = None /\
  (step Ex.quiet (ReqChan Ex.heartbeatRespFrom2) Ex.stale).2 = None.
Proof.
  split; [apply stale_reachable|].
  assert (groupIDs <$> nodes (st Ex.stale) !! 2 = Some {[7]}) as Hn
    by (vm_compute; reflexivity).
  assert (groups (st Ex.stale) !! 7 = None) as Hg by (vm_compute; reflexivity).
  split; [exact Hn|]. split; [exact Hg|]. split.
  - intros Hlive. destruct (nodes (st Ex.stale) !! 2) as [n|] eqn:Hn2; [|done].
    injection Hn as Hn. destruct (Hlive 2 n 7 Hn2) as [gp Hgp].
    + rewrite Hn. set_solver.
    + congruence.
  - by_compute.
Qed.

(** C4 fails on the code in that state: node 2 is a known peer, group 7 is
    in its registered set, the group table records no leader for group 7
    (it has no such group), and [fanoutHeartbeat] panics instead of skipping
    the group. *)
Theorem fanoutHeartbeat_stale_group_panics :
  reachable (start Ex.fresh1) Ex.stale /\
  groupIDs <$> nodes (st Ex.stale) !! 2 = Some {[7]} /\
  leaderOf (st Ex.stale) 7 = None /\
  (fanoutHeartbeat Ex.heartbeatFrom2 (st Ex.stale)).2 = Panic.
Proof.
  split; [apply stale_reachable|]. by_compute.
Qed.

(** The same defect with a group that storage knows: the loop panics on the
    heartbeat of node 2. *)
Example staleRun'_panics :
  (run (Ex.staleRun' ++ [(Ex.quiet, ReqChan Ex.heartbeatFrom2)]) (start Ex.fresh1)).2
  = Crashed.
Proof. vm_compute. reflexivity. Qed.

(** ** Completion channels (C5) *)

(** The commit path: when the command id of a committed entry is in the
    pending map, nil is sent on the proposal's channel only if the channel
    field is non-nil, the field is then nil, and the proposal leaves the
    pending map. *)
Lemma finishCommitted_signals groupID gptr entry data s g p pr :
  entData entry = EntryNormal (Some data) ->
  groupHeap s !! gptr = Some g ->
  pending g !! (decodeCommand data).1 = Some p ->
  proposalHeap s !! p = Some pr ->
  finishCommitted groupID gptr entry s =
    (SendEvent (EventCommandCommitted groupID (decodeCommand data).1
                  (decodeCommand data).2 (entIndex entry))
       :: match p_ch pr with
          | Some c => [ProposalDone c None]
          | None => []
          end,
     Ret tt
       (set_groupHeap (alter (set_pending (delete (decodeCommand data).1)) gptr)
          (match p_ch pr with
           | Some _ =>
               set_proposalHeap (alter (fun pr =>
                 {| p_groupID := p_groupID pr; p_commandID := p_commandID pr;
                    p_fn := p_fn pr; p_ch := None |}) p) s
           | None => s
           end))).
Proof.
  intros Hd Hg Hp Hpr. unfold finishCommitted, processCommittedEntry. rewrite Hd.
  destruct (decodeCommand data) as [commandID command] eqn:Hdec. cbn [fst snd] in *.
  rewrite bind_unfold. rewrite bind_unfold. unfold sendEvent, emit at 1.
  cbv iota beta. unfold ret at 1, mret, M_ret. cbv iota beta.
  rewrite bind_unfold. unfold derefGroup at 1. cbn [mbind option_bind]. rewrite Hg.
  cbv iota beta. rewrite Hp. rewrite bind_unfold. unfold derefProposal at 1.
  rewrite Hpr. cbv iota beta. rewrite bind_unfold.
  destruct (p_ch pr) as [c|]; cbn; reflexivity.
Qed.

(** C5 fails on the code. The proposal allocated by [SubmitCommand] has
    completion channel 0; after it has been re-queued twice and its group
    removed, each of the two queued copies is dispatched by [propose], which
    sends the group-not-found error on the channel and leaves the channel
    field as it is: channel 0 is signalled twice. *)
Theorem completion_channel_signalled_twice :
  exists l,
    (run Ex.doubleSignalRun (start Ex.fresh1)).2 = Running l /\
    reachable (start Ex.fresh1) l /\
    List.filter (isDone 0) (run Ex.doubleSignalRun (start Ex.fresh1)).1 =
      [ProposalDone 0 (Some (ErrGroupNotFound 7));
       ProposalDone 0 (Some (ErrGroupNotFound 7))] /\
    p_ch <$> proposalHeap (st l) !! 0%nat = Some (Some 0%nat).
Proof.
  exists (Ex.loopAfter Ex.doubleSignalRun (start Ex.fresh1)).
  assert ((run Ex.doubleSignalRun (start Ex.fresh1)).2 =
            Running (Ex.loopAfter Ex.doubleSignalRun (start Ex.fresh1))) as H
    by (vm_compute; reflexivity).
  split; [exact H|]. split.
  - apply (run_reachable _ Ex.doubleSignalRun (start Ex.fresh1)
             (run Ex.doubleSignalRun (start Ex.fresh1)).1); [constructor|].
    rewrite <- H. by destruct (run _ _).
  - split; vm_compute; reflexivity.
Qed.
